(** * cppmisc: the transport layer and the thread hand-off utilities

    A shallow embedding of
    - [transport/tcp_connection.hpp]  (module [TcpConnection]),
    - [transport/udp_connection.hpp]  (module [UdpConnection]),
    - [transport/tcp_listener.hpp]    (module [TcpListener]),
    - [synchronizer.hpp]              (module [Synchronizer]),
    - [concurrent_queue.hpp]          (module [ConcurrentQueue]).

    Asynchronous operations are written in direct style: an operation that
    ends by calling its completion callback returns [Fired] with the
    arguments of that call.  The network, the peer, the other threads and the
    clock are explicit inputs (lists of events), see module [Asio]. *)

From Stdlib Require Import String.
From Stdlib Require Import ZArith List Lia Bool.
From Stdlib Require Import Init.Byte.
From Stdlib Require Import Ascii NArith.
Import ListNotations.
Local Open Scope Z_scope.

(** ** Machine integers, buffers, outcomes *)

(** [size_t] and [uint64_t] are 64 bits wide (LP64); [wrap] is their
    wrap-around. *)
Definition SIZE_T_MODULUS : Z := 2 ^ 64.
Definition wrap (z : Z) : Z := z mod SIZE_T_MODULUS.

(** [std::vector<char>::size()] *)
Definition size {A : Type} (l : list A) : Z := Z.of_nat (List.length l).

Definition take {A : Type} (n : Z) (l : list A) : list A := firstn (Z.to_nat n) l.
Definition drop {A : Type} (n : Z) (l : list A) : list A := skipn (Z.to_nat n) l.

(** [boost::system::error_code], by its value; [0] is "no error". *)
Definition error_code : Type := Z.
Definition success : error_code := 0.

(** [error != 0] *)
Definition is_error (error : error_code) : bool := negb (error =? 0).

(** [std::memcpy(&dst[doff], &src[soff], n)]: [None] when one of the two
    ranges leaves its object (undefined behaviour in the source). *)
Definition memcpy (dst : list byte) (doff : Z) (src : list byte) (soff : Z) (n : Z)
  : option (list byte) :=
  if (0 <=? doff) && (0 <=? soff) && (0 <=? n)
     && (doff + n <=? size dst) && (soff + n <=? size src)
  then Some (take doff dst ++ take n (drop soff src) ++ drop (doff + n) dst)
  else None.

(** [std::vector<char>::resize(n)]: keeps the first [n] elements and pads
    with zero bytes. *)
Definition resize (n : Z) (v : list byte) : list byte :=
  take n v ++ repeat x00 (Z.to_nat (n - size v)).

(** How an asynchronous operation ends. *)
Inductive outcome (A : Type) : Type :=
| Fired (a : A)   (* the completion callback was called, with [a] *)
| Pending         (* the operation waits for the network for ever *)
| Undefined       (* a [memcpy] left its object: what follows is not defined *)
| OutOfFuel.      (* the chunk bound of the model was reached *)
Arguments Fired {A} a.
Arguments Pending {A}.
Arguments Undefined {A}.
Arguments OutOfFuel {A}.

(** The completion handler [k] of an operation runs when the operation
    fires, on what the operation hands to it. *)
Definition bind {A B : Type} (o : outcome A) (k : A -> outcome B) : outcome B :=
  match o with
  | Fired a => k a
  | Pending => Pending
  | Undefined => Undefined
  | OutOfFuel => OutOfFuel
  end.

Notation "x <- o ;; k" := (bind o (fun x => k))
  (at level 61, o at next level, right associativity).
Notation "' pat <- o ;; k" := (bind o (fun pat => k))
  (at level 61, pat pattern, o at next level, right associativity).

(** A [memcpy] that stays inside its objects goes on. *)
Definition defined {A : Type} (o : option A) : outcome A :=
  match o with
  | Some a => Fired a
  | None => Undefined
  end.

(** The exceptions the code throws or lets through. *)
Inductive exception : Type :=
| runtime_error (what : string)   (* std::runtime_error *)
| system_error (what : string)    (* std::system_error *)
| bad_function_call               (* std::bad_function_call *)
| timeout_exception.              (* concurrent_queue::timeout_exception *)

(** How a blocking call ends. *)
Inductive ending (A S : Type) : Type :=
| Returns (a : A) (s : S)          (* returns [a], the object is now [s] *)
| Throws (e : exception) (s : S)   (* throws [e], the object is now [s] *)
| Blocks (s : S)                   (* waits for another thread for ever *)
| Terminates.                      (* [std::terminate] *)
Arguments Returns {A S} a s.
Arguments Throws {A S} e s.
Arguments Blocks {A S} s.
Arguments Terminates {A S}.

(** ** The contract of Boost.Asio that the connections rely on *)
Module Asio.

(** What a stream socket will receive, in order: segments of payload, or an
    I/O error (peer close included).  An exhausted list is a silent peer. *)
Inductive segment : Type :=
| Packet (bs : list byte)
| Failure (e : positive).

Definition stream_socket : Type := list segment.

(** The payload that arrives before the first failure. *)
Fixpoint stream_bytes (s : stream_socket) : list byte :=
  match s with
  | [] => []
  | Failure _ :: _ => []
  | Packet bs :: s' => bs ++ stream_bytes s'
  end.

Fixpoint first_failure (s : stream_socket) : option positive :=
  match s with
  | [] => None
  | Failure e :: _ => Some e
  | Packet _ :: s' => first_failure s'
  end.

(** [boost::asio::async_read(socket, buffer(array, room), condition, handler)]:
    the composed read.  It receives segment after segment into the buffer and
    completes when the buffer is full, when [condition(error, transferred)]
    holds (old style completion condition: [true] means complete), or never.
    [got] is what the buffer holds so far.  The handler gets the error, and
    the bytes now in the buffer (their number is [bytes_transferred]). *)
Fixpoint async_read (condition : error_code -> Z -> bool) (room : Z)
         (got : list byte) (s : stream_socket)
  : outcome (error_code * list byte * stream_socket) :=
  if condition success (size got) || (room <=? size got)
  then Fired (success, got, s)
  else
    match s with
    | [] => Pending
    | Failure e :: s' =>
        if condition (Zpos e) (size got)
        then Fired (Zpos e, got, s')
        else async_read condition room got s'
    | Packet bs :: s' =>
        let free := room - size got in
        if size bs <=? free
        then async_read condition room (got ++ bs) s'
        else Fired (success, got ++ take free bs, Packet (drop free bs) :: s')
    end.

(** How the peer of a sending socket answers the successive physical sends:
    it takes the whole chunk, or the send fails after [k] bytes left. *)
Inductive send_result : Type :=
| Sent
| Broken (e : positive) (k : nat).

Definition peer : Type := list send_result.

(** The chunks that were physically sent, oldest first. *)
Definition wire : Type := list (list byte).

(** [boost::asio::async_write(socket, buffer(array, n), handler)]: the
    composed write.  On success all [n] bytes are transferred; an empty
    buffer completes at once.  The handler gets the error and
    [bytes_transferred]. *)
Definition async_write (data : list byte) (p : peer) (w : wire)
  : outcome (error_code * Z * peer * wire) :=
  if size data =? 0 then Fired (success, 0, p, w ++ [data])
  else
    match p with
    | [] => Pending
    | Sent :: p' => Fired (success, size data, p', w ++ [data])
    | Broken e k :: p' =>
        let part := firstn k (removelast data) in
        Fired (Zpos e, size part, p', w ++ [part])
    end.

End Asio.

(** ** transport/tcp_connection.hpp *)
Module TcpConnection.
Import Asio.

Definition BUFFER_LENGTH : Z := 1024.

(** The data members of [tcp_connection] (the socket is the explicit
    [stream_socket] / [peer] argument of the operations). *)
Record tcp_connection : Type := {
  read_buffer_ : list byte;     (* std::array<char, BUFFER_LENGTH> *)
  write_buffer_ : list byte;    (* std::array<char, BUFFER_LENGTH> *)
  incoming_data_ : list byte;   (* std::vector<char> *)
  outgoing_data_ : list byte    (* std::vector<char> *)
}.

(** The two arrays have their declared length. *)
Definition arrays_ok (c : tcp_connection) : Prop :=
  size (read_buffer_ c) = BUFFER_LENGTH /\ size (write_buffer_ c) = BUFFER_LENGTH.

(** A connection as its constructor leaves it (array contents are
    unspecified in the source; zero here). *)
Definition fresh : tcp_connection :=
  {| read_buffer_ := repeat x00 1024;
     write_buffer_ := repeat x00 1024;
     incoming_data_ := [];
     outgoing_data_ := [] |}.

Definition set_read_buffer (c : tcp_connection) (b : list byte) : tcp_connection :=
  {| read_buffer_ := b; write_buffer_ := write_buffer_ c;
     incoming_data_ := incoming_data_ c; outgoing_data_ := outgoing_data_ c |}.

Definition set_write_buffer (c : tcp_connection) (b : list byte) : tcp_connection :=
  {| read_buffer_ := read_buffer_ c; write_buffer_ := b;
     incoming_data_ := incoming_data_ c; outgoing_data_ := outgoing_data_ c |}.

Definition set_incoming_data (c : tcp_connection) (b : list byte) : tcp_connection :=
  {| read_buffer_ := read_buffer_ c; write_buffer_ := write_buffer_ c;
     incoming_data_ := b; outgoing_data_ := outgoing_data_ c |}.

Definition set_outgoing_data (c : tcp_connection) (b : list byte) : tcp_connection :=
  {| read_buffer_ := read_buffer_ c; write_buffer_ := write_buffer_ c;
     incoming_data_ := incoming_data_ c; outgoing_data_ := b |}.

(** The bytes an [async_read] left in the front of an array. *)
Definition received_into (array got : list byte) : list byte :=
  got ++ skipn (List.length got) array.

(** One chunk of a read: the [bytes] still wanted and the offset
    [read_bytes] when it was issued, and what came into the scratch buffer. *)
Record chunk : Type := {
  chunk_bytes : Z;
  chunk_offset : Z;
  chunk_data : list byte
}.

(** What a finished read leaves: the arguments of the callback, the
    connection, the socket, and the chunks it went through. *)
Record read_done : Type := {
  r_error : error_code;
  r_buffer : list byte;
  r_conn : tcp_connection;
  r_socket : stream_socket;
  r_chunks : list chunk
}.

(** [read(bytes, buffer, callback, read_bytes)], the private chunked
    overload.  [fuel] bounds the number of chunks. *)
Fixpoint read_chunked (fuel : nat) (c : tcp_connection) (s : stream_socket)
         (bytes : Z) (buffer : list byte) (read_bytes : Z) (log : list chunk)
  : outcome read_done :=
  match fuel with
  | O => OutOfFuel
  | S fuel' =>
      '(error, got, s') <-
        async_read (fun error len => is_error error || (bytes <=? len))
                   (if bytes <? BUFFER_LENGTH then bytes else BUFFER_LENGTH)
                   [] s ;;
      let len := size got in
      let c' := set_read_buffer c (received_into (read_buffer_ c) got) in
      let log' := log ++ [{| chunk_bytes := bytes; chunk_offset := read_bytes;
                             chunk_data := got |}] in
      if is_error error
      then Fired {| r_error := error; r_buffer := buffer; r_conn := c';
                    r_socket := s'; r_chunks := log' |}
      else
        buffer' <- defined (memcpy buffer read_bytes (read_buffer_ c') 0 len) ;;
        if wrap (bytes - len) >? 0
        then read_chunked fuel' c' s' (wrap (bytes - len)) buffer'
                          (wrap (read_bytes + len)) log'
        else Fired {| r_error := success; r_buffer := buffer'; r_conn := c';
                      r_socket := s'; r_chunks := log' |}
  end.

(** [read(bytes, data, callback)]: into a buffer of the caller. *)
Definition read_into (fuel : nat) (c : tcp_connection) (s : stream_socket)
           (bytes : Z) (data : list byte) : outcome read_done :=
  read_chunked fuel c s bytes data 0 [].

(** [read(bytes, callback)]: resizes [incoming_data_], reads into it and
    hands it to the callback, after an error as well.  The callback takes the
    vector by value, which leaves [incoming_data_] empty. *)
Definition read (c : tcp_connection) (s : stream_socket) (bytes : Z)
  : outcome read_done :=
  let incoming := resize bytes (incoming_data_ c) in
  r <- read_into (S (Z.to_nat bytes)) (set_incoming_data c incoming) s bytes incoming ;;
  Fired {| r_error := r_error r; r_buffer := r_buffer r;
           r_conn := set_incoming_data (r_conn r) [];
           r_socket := r_socket r; r_chunks := r_chunks r |}.

(** One physical send of a write: the counter [sent] when it was issued,
    the scratch buffer handed to [async_write], the length announced, and
    [bytes_transferred]. *)
Record send_step : Type := {
  step_sent : Z;
  step_scratch : list byte;
  step_increment : Z;
  step_transferred : Z
}.

Record write_done : Type := {
  w_error : error_code;
  w_conn : tcp_connection;
  w_peer : peer;
  w_wire : wire;
  w_steps : list send_step
}.

(** [write(callback, sent)], the private chunked overload.  [fuel] bounds
    the number of chunks. *)
Fixpoint write_chunked (fuel : nat) (c : tcp_connection) (p : peer) (w : wire)
         (sent : Z) (log : list send_step) : outcome write_done :=
  match fuel with
  | O => OutOfFuel
  | S fuel' =>
      let increment := wrap (size (outgoing_data_ c) - sent) in
      let increment := if increment <? BUFFER_LENGTH then increment else BUFFER_LENGTH in
      scratch <- defined (memcpy (write_buffer_ c) 0 (outgoing_data_ c) sent increment) ;;
      let c' := set_write_buffer c scratch in
      '(error, bytes_transferred, p', w') <- async_write (take increment scratch) p w ;;
      let log' := log ++ [{| step_sent := sent; step_scratch := scratch;
                             step_increment := increment;
                             step_transferred := bytes_transferred |}] in
      if is_error error || (wrap (sent + bytes_transferred) =? size (outgoing_data_ c))
      then Fired {| w_error := error; w_conn := c'; w_peer := p';
                    w_wire := w'; w_steps := log' |}
      else write_chunked fuel' c' p' w' (wrap (sent + bytes_transferred)) log'
  end.

(** [write(data, callback)]: takes the vector by value, moves it into
    [outgoing_data_] and starts the chain at [sent = 0].  (The [__TRACE] and
    [__DUMP_BUFFER] lines of this file print to stderr and do nothing else;
    they are left out here and in the reads.) *)
Definition write (c : tcp_connection) (p : peer) (w : wire) (data : list byte)
  : outcome write_done :=
  write_chunked (S (Z.to_nat (size data))) (set_outgoing_data c data) p w 0 [].

End TcpConnection.

(** ** transport/udp_connection.hpp *)
Module UdpConnection.
Import Asio.

Definition BUFFER_LENGTH : Z := 1024.

(** [boost::asio::ip::udp::endpoint], as address and port;
    [endpoint_type()] is the default one. *)
Definition endpoint_type : Type := (Z * Z)%type.
Definition default_endpoint : endpoint_type := (0, 0).

(** What a datagram socket will see, one entry per readiness: the wait for
    readiness fails, or a datagram is there; its receive can still fail
    (for one, the socket is closed between the probe and the receive). *)
Inductive arrival : Type :=
| ProbeFailure (e : positive)
| Datagram (from : endpoint_type) (payload : list byte) (receive_error : option positive).

Definition datagram_socket : Type := list arrival.

(** [socket_.async_receive(null_buffers(), handler)]: waits until the
    socket is readable and consumes nothing. *)
Definition async_receive_null (s : datagram_socket)
  : outcome (error_code * datagram_socket) :=
  match s with
  | [] => Pending
  | ProbeFailure e :: s' => Fired (Zpos e, s')
  | Datagram _ _ _ :: _ => Fired (success, s)
  end.

(** [socket_.available()]: the size of the next datagram. *)
Definition available (s : datagram_socket) : Z :=
  match s with
  | Datagram _ payload _ :: _ => size payload
  | _ => 0
  end.

(** [socket_.async_receive_from(buffer(v, n), endpoint, handler)]: takes
    the next datagram, cut to the buffer, and its sender; on error the
    buffer and the endpoint are as they were. *)
Definition async_receive_from (s : datagram_socket) (buffer : list byte)
           (endpoint : endpoint_type)
  : outcome (error_code * Z * list byte * endpoint_type * datagram_socket) :=
  match s with
  | [] => Pending
  | ProbeFailure e :: s' => Fired (Zpos e, 0, buffer, endpoint, s')
  | Datagram from payload None :: s' =>
      let got := take (size buffer) payload in
      Fired (success, size got, got ++ skipn (List.length got) buffer, from, s')
  | Datagram _ _ (Some e) :: s' => Fired (Zpos e, 0, buffer, endpoint, s')
  end.

(** [udp_read_cb_data(bytes_to_read)] *)
Record udp_read_cb_data : Type := {
  buffer : list byte;
  endpoint : endpoint_type
}.

Definition make_udp_read_cb_data (bytes_to_read : Z) : udp_read_cb_data :=
  {| buffer := repeat x00 (Z.to_nat bytes_to_read); endpoint := default_endpoint |}.

(** The arguments of the read callback, and the socket afterwards. *)
Record read_done : Type := {
  r_error : error_code;
  r_endpoint : endpoint_type;
  r_buffer : list byte;
  r_socket : datagram_socket
}.

(** [read(callback)] *)
Definition read (s : datagram_socket) : outcome read_done :=
  '(error, s1) <- async_receive_null s ;;
  if is_error error
  then Fired {| r_error := error; r_endpoint := default_endpoint;
                r_buffer := []; r_socket := s1 |}
  else
    let read_data := make_udp_read_cb_data (available s1) in
    '(error, bytes_transferred, buffer', endpoint', s2) <-
      async_receive_from s1 (buffer read_data) (endpoint read_data) ;;
    let buffer'' :=
      if negb (is_error error) then resize bytes_transferred buffer' else buffer' in
    Fired {| r_error := error; r_endpoint := endpoint';
             r_buffer := buffer''; r_socket := s2 |}.

(** The data members of [udp_connection] that [write] uses. *)
Record udp_connection : Type := {
  write_buffer_ : list byte;    (* std::array<char, BUFFER_LENGTH> *)
  outgoing_data_ : list byte    (* std::vector<char> *)
}.

Definition set_write_buffer (c : udp_connection) (b : list byte) : udp_connection :=
  {| write_buffer_ := b; outgoing_data_ := outgoing_data_ c |}.

Definition set_outgoing_data (c : udp_connection) (b : list byte) : udp_connection :=
  {| write_buffer_ := write_buffer_ c; outgoing_data_ := b |}.

Record send_step : Type := {
  step_sent : Z;
  step_scratch : list byte;
  step_increment : Z;
  step_transferred : Z
}.

Record write_done : Type := {
  w_error : error_code;
  w_conn : udp_connection;
  w_peer : peer;
  w_wire : wire;
  w_steps : list send_step
}.

(** [write(callback, sent)], the private chunked overload; every
    [async_write] is one datagram on the wire. *)
Fixpoint write_chunked (fuel : nat) (c : udp_connection) (p : peer) (w : wire)
         (sent : Z) (log : list send_step) : outcome write_done :=
  match fuel with
  | O => OutOfFuel
  | S fuel' =>
      let increment := wrap (size (outgoing_data_ c) - sent) in
      let increment := if increment <? BUFFER_LENGTH then increment else BUFFER_LENGTH in
      scratch <- defined (memcpy (write_buffer_ c) 0 (outgoing_data_ c) sent increment) ;;
      let c' := set_write_buffer c scratch in
      '(error, bytes_transferred, p', w') <- async_write (take increment scratch) p w ;;
      let log' := log ++ [{| step_sent := sent; step_scratch := scratch;
                             step_increment := increment;
                             step_transferred := bytes_transferred |}] in
      if is_error error || (wrap (sent + bytes_transferred) =? size (outgoing_data_ c))
      then Fired {| w_error := error; w_conn := c'; w_peer := p';
                    w_wire := w'; w_steps := log' |}
      else write_chunked fuel' c' p' w' (wrap (sent + bytes_transferred)) log'
  end.

(** [write(data, callback)] *)
Definition write (c : udp_connection) (p : peer) (w : wire) (data : list byte)
  : outcome write_done :=
  write_chunked (S (Z.to_nat (size data))) (set_outgoing_data c data) p w 0 [].

End UdpConnection.

(** ** transport/tcp_listener.hpp *)
Module TcpListener.

Definition THREADS : nat := 2.

(** [boost::asio::error::operation_aborted] and [bad_descriptor], by their
    [errno] values. *)
Definition operation_aborted : positive := 125.
Definition bad_descriptor : positive := 9.

(** A [std::thread] object: it stands for a running thread (joinable) or
    for none (default constructed, or joined). *)
Inductive thread : Type :=
| not_a_thread
| running.

(** One call of the connection handler: which handler, the error, and the
    connection (by the number of the accepted peer) or none. *)
Record notification : Type := {
  n_handler : nat;
  n_error : error_code;
  n_connection : option nat
}.

(** The data members of [tcp_listener].  Of the acceptor and the
    io_service the model keeps whether they are open and stopped, the
    accepts that are armed and not completed, and the completions that are
    queued in the io_service and have not run: each one is the lambda of an
    accept that ended with the given error. *)
Record tcp_listener : Type := {
  ip_ : string;
  port_ : Z;
  ioservice_stopped : bool;
  acceptor_open : bool;
  outstanding : nat;
  posted : list positive;
  threads_ : list thread;
  connection_handler_ : option nat;
  notified : list notification
}.

(** [tcp_listener(port, ip)] *)
Definition make (port : Z) (ip : string) : tcp_listener :=
  {| ip_ := ip; port_ := port; ioservice_stopped := false; acceptor_open := false;
     outstanding := 0; posted := []; threads_ := repeat not_a_thread THREADS;
     connection_handler_ := None; notified := [] |}.

Definition set_threads_ (l : tcp_listener) (ts : list thread) : tcp_listener :=
  {| ip_ := ip_ l; port_ := port_ l; ioservice_stopped := ioservice_stopped l;
     acceptor_open := acceptor_open l; outstanding := outstanding l;
     posted := posted l; threads_ := ts;
     connection_handler_ := connection_handler_ l; notified := notified l |}.

Definition set_handler (l : tcp_listener) (h : option nat) : tcp_listener :=
  {| ip_ := ip_ l; port_ := port_ l; ioservice_stopped := ioservice_stopped l;
     acceptor_open := acceptor_open l; outstanding := outstanding l;
     posted := posted l; threads_ := threads_ l;
     connection_handler_ := h; notified := notified l |}.

Definition set_stopped (l : tcp_listener) (b : bool) : tcp_listener :=
  {| ip_ := ip_ l; port_ := port_ l; ioservice_stopped := b;
     acceptor_open := acceptor_open l; outstanding := outstanding l;
     posted := posted l; threads_ := threads_ l;
     connection_handler_ := connection_handler_ l; notified := notified l |}.

Definition set_acceptor (l : tcp_listener) (open : bool) (armed : nat)
           (queue : list positive) : tcp_listener :=
  {| ip_ := ip_ l; port_ := port_ l; ioservice_stopped := ioservice_stopped l;
     acceptor_open := open; outstanding := armed; posted := queue;
     threads_ := threads_ l;
     connection_handler_ := connection_handler_ l; notified := notified l |}.

Definition add_notification (l : tcp_listener) (n : notification) : tcp_listener :=
  {| ip_ := ip_ l; port_ := port_ l; ioservice_stopped := ioservice_stopped l;
     acceptor_open := acceptor_open l; outstanding := outstanding l;
     posted := posted l; threads_ := threads_ l;
     connection_handler_ := connection_handler_ l; notified := notified l ++ [n] |}.

Definition joinable (t : thread) : bool :=
  match t with
  | running => true
  | not_a_thread => false
  end.

(** [set_threads(threads)]: [threads_.resize(threads)], for a count that is
    not negative.  A resize that shrinks destroys the elements it drops, and
    the destructor of a joinable [std::thread] calls [std::terminate]; a
    resize that grows appends default constructed threads. *)
Definition set_threads (l : tcp_listener) (threads : nat) : ending unit tcp_listener :=
  if existsb joinable (skipn threads (threads_ l))
  then Terminates
  else Returns tt (set_threads_ l (firstn threads (threads_ l)
                     ++ repeat not_a_thread (threads - List.length (threads_ l)))).

(** [connection_handler_(error, connection)]: calling an empty
    [std::function] throws. *)
Definition call_handler (l : tcp_listener) (error : error_code) (connection : option nat)
  : ending unit tcp_listener :=
  match connection_handler_ l with
  | None => Throws bad_function_call l
  | Some h => Returns tt (add_notification l {| n_handler := h; n_error := error;
                                                n_connection := connection |})
  end.

(** [async_accept()] up to the return of [acceptor_.async_accept]: one
    more accept is armed.  On an acceptor that is closed the accept ends at
    once with [bad_descriptor], and its completion is queued. *)
Definition async_accept (l : tcp_listener) : tcp_listener :=
  if acceptor_open l
  then set_acceptor l true (S (outstanding l)) (posted l)
  else set_acceptor l false (outstanding l) (posted l ++ [bad_descriptor]).

(** How an armed accept completes. *)
Inductive accept_event : Type :=
| Accepted (peer : nat)
| AcceptFailed (e : positive).

(** The completion handler that [async_accept] passes to the acceptor:
    the handler is called first, and after a successful accept the next one
    is armed when the handler has returned. *)
Definition accept_handler (l : tcp_listener) (ev : accept_event)
  : ending unit tcp_listener :=
  match ev with
  | AcceptFailed e => call_handler l (Zpos e) None
  | Accepted peer =>
      match call_handler l success (Some peer) with
      | Returns _ l' => Returns tt (async_accept l')
      | other => other
      end
  end.

(** Completion handlers run in the threads of the pool that are inside
    [ioservice_.run()], and [run()] returns once the io_service is stopped. *)
Definition working (l : tcp_listener) : bool :=
  negb (ioservice_stopped l) && existsb joinable (threads_ l).

(** An accept that has completed is armed no longer. *)
Definition disarm (l : tcp_listener) : tcp_listener :=
  set_acceptor l (acceptor_open l) (pred (outstanding l)) (posted l).

(** The io_service completes an armed accept and a worker runs its
    handler; with no accept armed no completion can come. *)
Definition complete_accept (l : tcp_listener) (ev : accept_event)
  : option (ending unit tcp_listener) :=
  if working l
  then match outstanding l with
       | O => None
       | S _ => Some (accept_handler (disarm l) ev)
       end
  else None.

(** A worker takes the oldest queued completion and runs it. *)
Definition run_posted (l : tcp_listener) : option (ending unit tcp_listener) :=
  if working l
  then match posted l with
       | [] => None
       | e :: queue =>
           Some (accept_handler
                   (set_acceptor l (acceptor_open l) (outstanding l) queue)
                   (AcceptFailed e))
       end
  else None.

(** What the workers do next: the network completes the armed accept, or
    a queued completion is run. *)
Inductive work : Type :=
| Completes (ev : accept_event)
| RunsPosted.

Definition step (l : tcp_listener) (w : work) : option (ending unit tcp_listener) :=
  match w with
  | Completes ev => complete_accept l ev
  | RunsPosted => run_posted l
  end.

(** A run of the listener over the work that comes up.  Work that finds
    nothing to do reaches nobody; an exception of the handler ends the
    run. *)
Fixpoint run (l : tcp_listener) (ws : list work) : tcp_listener :=
  match ws with
  | [] => l
  | w :: ws' =>
      match step l w with
      | Some (Returns _ l') => run l' ws'
      | Some (Throws _ l') => l'
      | Some (Blocks l') => l'
      | Some Terminates => l
      | None => run l ws'
      end
  end.

(** [thread = std::thread(...)] for every element: move assignment to a
    joinable thread calls [std::terminate]. *)
Fixpoint spawn_all (ts : list thread) : option (list thread) :=
  match ts with
  | [] => Some []
  | not_a_thread :: ts' =>
      match spawn_all ts' with
      | Some ts'' => Some (running :: ts'')
      | None => None
      end
  | running :: _ => None
  end.

(** [start(handler)]; [bindable] tells whether [bind] and [listen] on the
    endpoint succeed.  [open] throws on an acceptor that is open, and has
    opened the acceptor by the time [bind] or [listen] throws.  A newly
    opened acceptor has no accept armed.  [ioservice_.reset()] keeps the
    completions that are queued: the new workers run them. *)
Definition start (l : tcp_listener) (handler : nat) (bindable : bool)
  : ending unit tcp_listener :=
  let l := set_handler l (Some handler) in
  let l := set_stopped l false in
  match spawn_all (threads_ l) with
  | None => Terminates
  | Some ts =>
      let l := set_threads_ l ts in
      if acceptor_open l then Throws (system_error "open: Already open") l
      else
        let l := set_acceptor l true 0 (posted l) in
        if negb bindable then Throws (system_error "bind") l
        else Returns tt (async_accept l)
  end.

(** [for (auto& thread : threads_) thread.join();]: [std::thread::join]
    throws [std::system_error] (invalid argument) on a thread that is not
    joinable.  The boolean tells whether the loop went through. *)
Fixpoint join_all (ts : list thread) : list thread * bool :=
  match ts with
  | [] => ([], true)
  | not_a_thread :: _ => (ts, false)
  | running :: ts' =>
      let (ts'', ok) := join_all ts' in (not_a_thread :: ts'', ok)
  end.

(** [acceptor_.close()]: every armed accept ends with
    [operation_aborted], and its completion is queued in the io_service. *)
Definition close (l : tcp_listener) : tcp_listener :=
  set_acceptor l false 0 (posted l ++ repeat operation_aborted (outstanding l)).

(** The workers go on until they see that the io_service is stopped: up
    to [picked] of the queued completions are still run.  An exception that
    leaves a handler leaves the thread function, which calls
    [std::terminate]. *)
Fixpoint drain_posted (picked : nat) (l : tcp_listener) : ending unit tcp_listener :=
  match picked with
  | O => Returns tt l
  | S picked' =>
      match run_posted l with
      | None => Returns tt l
      | Some (Returns _ l') => drain_posted picked' l'
      | Some (Throws _ _) => Terminates
      | Some other => other
      end
  end.

(** [stop()]; [picked] is the number of queued completions that the
    workers run before [ioservice_.stop()] reaches them.  The completions
    that are left stay in the queue of the io_service. *)
Definition stop (l : tcp_listener) (picked : nat) : ending unit tcp_listener :=
  match drain_posted picked (close l) with
  | Returns _ l =>
      let l := set_stopped l true in
      let (ts, ok) := join_all (threads_ l) in
      let l := set_threads_ l ts in
      if ok then Returns tt (set_handler l None)
      else Throws (system_error "Invalid argument") l
  | other => other
  end.

(** [~tcp_listener()]: calls [stop()]; an exception that leaves a
    destructor calls [std::terminate]. *)
Definition destroy (l : tcp_listener) (picked : nat) : ending unit unit :=
  match stop l picked with
  | Returns _ _ => Returns tt tt
  | Throws _ _ => Terminates
  | Blocks _ => Blocks tt
  | Terminates => Terminates
  end.

End TcpListener.

(** ** synchronizer.hpp *)
Module Synchronizer.

(** The flag of the event.  The mutex and the condition variable show
    through the locks handed in and through the wake-ups of the waits. *)
Record synchronizer : Type := {
  _condition_met : bool
}.

(** [boost::unique_lock<synchronizer>], by [owns_lock()]. *)
Record scoped_lock : Type := {
  owns_lock : bool
}.

(** [synchronizer()] *)
Definition make : synchronizer := {| _condition_met := false |}.

(** [scoped_lock lock] on the synchronizer itself *)
Definition acquire : scoped_lock := {| owns_lock := true |}.

(** [is_condition_met(lock)] *)
Definition is_condition_met (s : synchronizer) (lock : scoped_lock)
  : ending bool synchronizer :=
  if Bool.eqb (owns_lock lock) false then Throws (runtime_error "Invalid lock") s
  else Returns (_condition_met s) s.

(** [set(lock)]; [notify_all] wakes the waiters, which then see the flag. *)
Definition set (s : synchronizer) (lock : scoped_lock) : ending unit synchronizer :=
  if Bool.eqb (owns_lock lock) false then Throws (runtime_error "Invalid lock") s
  else Returns tt {| _condition_met := true |}.

(** [reset(lock)] *)
Definition reset (s : synchronizer) (lock : scoped_lock) : ending unit synchronizer :=
  if Bool.eqb (owns_lock lock) false then Throws (runtime_error "Invalid lock") s
  else Returns tt {| _condition_met := false |}.

(** [while (_condition_met == false) _condition.wait(lock);]: every return
    of [_condition.wait] shows the flag as the other threads left it
    ([false] for a spurious wake-up); when the list is over nobody wakes the
    thread again. *)
Fixpoint wait_loop (s : synchronizer) (wakeups : list bool) : ending unit synchronizer :=
  if Bool.eqb (_condition_met s) false
  then match wakeups with
       | [] => Blocks s
       | flag :: wakeups' => wait_loop {| _condition_met := flag |} wakeups'
       end
  else Returns tt s.

(** [wait(lock)] *)
Definition wait (s : synchronizer) (lock : scoped_lock) (wakeups : list bool)
  : ending unit synchronizer :=
  if Bool.eqb (owns_lock lock) false then Throws (runtime_error "Invalid lock") s
  else wait_loop s wakeups.

(** [while (_condition_met == false && get_system_time() < deadline)
    _condition.timed_wait(lock, deadline);]: [now] is the clock at the test,
    every return of [timed_wait] shows the flag and the clock. *)
Fixpoint timed_wait_loop (s : synchronizer) (deadline now : Z) (wakeups : list (bool * Z))
  : ending bool synchronizer :=
  if Bool.eqb (_condition_met s) false && (now <? deadline)
  then match wakeups with
       | [] => Blocks s
       | (flag, now') :: wakeups' =>
           timed_wait_loop {| _condition_met := flag |} deadline now' wakeups'
       end
  else Returns (_condition_met s) s.

(** [wait(lock, deadline)] *)
Definition wait_until (s : synchronizer) (lock : scoped_lock) (deadline now : Z)
           (wakeups : list (bool * Z)) : ending bool synchronizer :=
  if Bool.eqb (owns_lock lock) false then Throws (runtime_error "Invalid lock") s
  else timed_wait_loop s deadline now wakeups.

(** [wait(lock, timeout)] *)
Definition wait_for (s : synchronizer) (lock : scoped_lock) (timeout now : Z)
           (wakeups : list (bool * Z)) : ending bool synchronizer :=
  wait_until s lock (now + timeout) now wakeups.

(** The overloads that take the lock themselves. *)
Definition set_locking (s : synchronizer) : ending unit synchronizer := set s acquire.
Definition reset_locking (s : synchronizer) : ending unit synchronizer := reset s acquire.
Definition wait_locking (s : synchronizer) (wakeups : list bool)
  : ending unit synchronizer := wait s acquire wakeups.
Definition wait_until_locking (s : synchronizer) (deadline now : Z)
           (wakeups : list (bool * Z)) : ending bool synchronizer :=
  wait_until s acquire deadline now wakeups.
Definition wait_for_locking (s : synchronizer) (timeout now : Z)
           (wakeups : list (bool * Z)) : ending bool synchronizer :=
  wait_for s acquire timeout now wakeups.

(** [is_condition_met() const]: reads the flag under a [lock_guard]. *)
Definition is_condition_met_locking (s : synchronizer) : bool := _condition_met s.

End Synchronizer.

(** ** concurrent_queue.hpp *)
Module ConcurrentQueue.
Section Queue.

Variable value_type : Type.

(** The data members: the counter ([atomic_count] holds a [long]) and the
    container ([std::list]). *)
Record concurrent_queue : Type := {
  _size : Z;
  _container : list value_type
}.

(** [concurrent_queue()] *)
Definition make : concurrent_queue := {| _size := 0; _container := [] |}.

(** [empty()] *)
Definition empty (q : concurrent_queue) : bool := _size q =? 0.

(** [size()]: the counter, converted to [size_t]. *)
Definition size (q : concurrent_queue) : Z := wrap (_size q).

(** [do_push(element)] *)
Definition do_push (q : concurrent_queue) (element : value_type) : concurrent_queue :=
  {| _size := _size q + 1; _container := _container q ++ [element] |}.

(** [do_pop(result)]: [None] is [front()] of an empty list. *)
Definition do_pop (q : concurrent_queue) : option (value_type * concurrent_queue) :=
  match _container q with
  | [] => None
  | front :: rest => Some (front, {| _size := _size q - 1; _container := rest |})
  end.

(** [push(element)] *)
Definition push (q : concurrent_queue) (element : value_type) : concurrent_queue :=
  do_push q element.

(** [clear()]: swaps the container with an empty one. *)
Definition clear (q : concurrent_queue) : concurrent_queue :=
  {| _size := _size q; _container := [] |}.

(** What the thread finds when a wait on [_condition] returns: the
    elements other threads pushed meanwhile (none for a spurious wake-up),
    or, for a timed wait, that the deadline passed.  A push that slips in
    while an expired wait takes the mutex back overlaps the return of the
    call and is ordered after it: the caller cannot tell the two apart. *)
Inductive wake : Type :=
| Notified (pushed : list value_type)
| TimedOut.

Definition pushes (q : concurrent_queue) (pushed : list value_type) : concurrent_queue :=
  fold_left push pushed q.

(** The loop of [pop(result)]:
    [while (_container.empty()) _condition.wait(lock);]
    The untimed wait never reports a timeout. *)
Fixpoint wait_loop (q : concurrent_queue) (wakes : list wake)
  : ending unit concurrent_queue :=
  match _container q with
  | [] =>
      match wakes with
      | [] => Blocks q
      | Notified pushed :: wakes' => wait_loop (pushes q pushed) wakes'
      | TimedOut :: wakes' => wait_loop q wakes'
      end
  | _ :: _ => Returns tt q
  end.

(** [pop(result)] *)
Definition pop (q : concurrent_queue) (wakes : list wake)
  : ending value_type concurrent_queue :=
  match wait_loop q wakes with
  | Returns _ q' =>
      match do_pop q' with
      | Some (front, q'') => Returns front q''
      | None => Terminates   (* not reached: the loop leaves an element *)
      end
  | Throws e q' => Throws e q'
  | Blocks q' => Blocks q'
  | Terminates => Terminates
  end.

(** The inner loop of [pop(result, timeout_ms)]:
    [while (_container.empty()) if (!timed_wait(lock, deadline)) return false;]
    [None] is that [return false]. *)
Fixpoint timed_wait_loop (q : concurrent_queue) (wakes : list wake)
  : ending (option unit) concurrent_queue :=
  match _container q with
  | [] =>
      match wakes with
      | [] => Blocks q
      | Notified pushed :: wakes' => timed_wait_loop (pushes q pushed) wakes'
      | TimedOut :: _ => Returns None q
      end
  | _ :: _ => Returns (Some tt) q
  end.

(** [pop(result, timeout_ms)]: returns the boolean and [result]. *)
Definition pop_timed (q : concurrent_queue) (result : value_type) (wakes : list wake)
  : ending (bool * value_type)%type concurrent_queue :=
  match timed_wait_loop q wakes with
  | Returns None q' => Returns (false, result) q'
  | Returns (Some _) q' =>
      match do_pop q' with
      | Some (front, q'') => Returns (true, front) q''
      | None => Terminates   (* not reached: the loop leaves an element *)
      end
  | Throws e q' => Throws e q'
  | Blocks q' => Blocks q'
  | Terminates => Terminates
  end.

(** [pop(timeout_ms)]; [_result] is the default constructed value. *)
Definition pop_timeout (q : concurrent_queue) (_result : value_type) (wakes : list wake)
  : ending value_type concurrent_queue :=
  match pop_timed q _result wakes with
  | Returns (false, _) q' => Throws timeout_exception q'
  | Returns (true, r) q' => Returns r q'
  | Throws e q' => Throws e q'
  | Blocks q' => Blocks q'
  | Terminates => Terminates
  end.

End Queue.

Arguments _size {value_type} _.
Arguments _container {value_type} _.
Arguments make {value_type}.
Arguments empty {value_type} _.
Arguments size {value_type} _.
Arguments do_push {value_type} _ _.
Arguments do_pop {value_type} _.
Arguments push {value_type} _ _.
Arguments clear {value_type} _.
Arguments Notified {value_type} _.
Arguments TimedOut {value_type}.
Arguments pushes {value_type} _ _.
Arguments wait_loop {value_type} _ _.
Arguments pop {value_type} _ _.
Arguments timed_wait_loop {value_type} _ _.
Arguments pop_timed {value_type} _ _ _.
Arguments pop_timeout {value_type} _ _ _.

End ConcurrentQueue.

(** ** The vocabulary of the statements *)

Section StreamVocabulary.
Import Asio TcpConnection.

(** What [memcpy] makes of [buffer] when it puts [got] at [offset]. *)
Definition splice (buffer : list byte) (offset : Z) (got : list byte) : list byte :=
  take offset buffer ++ got ++ drop (offset + size got) buffer.

(** A completion condition that stops on any error and on [bytes]
    transferred, as the one [read] passes. *)
Definition stops_at (bytes : Z) (condition : error_code -> Z -> bool) : Prop :=
  (forall len, condition success len = (bytes <=? len))
  /\ (forall e len, condition (Zpos e) len = true).

(** The chunks of a read hang together: each one was asked for what was
    still missing, holds [min(missing, BUFFER_LENGTH)] bytes, and went to the
    offset where the one before ended. *)
Fixpoint chained (bytes offset : Z) (log : list chunk) : Prop :=
  match log with
  | [] => bytes = 0
  | k :: log' =>
      chunk_bytes k = bytes /\ chunk_offset k = offset
      /\ size (chunk_data k) = Z.min bytes BUFFER_LENGTH
      /\ chained (bytes - size (chunk_data k)) (offset + size (chunk_data k)) log'
  end.

Definition payload (log : list chunk) : list byte := concat (map chunk_data log).

(** The sends the peer takes before it stops answering or fails. *)
Fixpoint accepts (p : peer) : nat :=
  match p with
  | Sent :: p' => S (accepts p')
  | _ => O
  end.

(** The sends of a write hang together: each one starts where the one
    before stopped, announces [min(unsent, BUFFER_LENGTH)] bytes, finds that
    many bytes of the unsent suffix in the scratch buffer, and puts on the
    wire the part of the scratch buffer that was transferred. *)
Fixpoint sends_chained (data : list byte) (sent : Z) (steps : list send_step)
         (chunks : wire) : Prop :=
  match steps, chunks with
  | [], [] => True
  | st :: steps', ch :: chunks' =>
      step_sent st = sent
      /\ step_increment st = Z.min (size data - sent) BUFFER_LENGTH
      /\ take (step_increment st) (step_scratch st)
         = take (step_increment st) (drop sent data)
      /\ 0 <= step_transferred st <= step_increment st
      /\ ch = take (step_transferred st) (step_scratch st)
      /\ sends_chained data (sent + step_transferred st) steps' chunks'
  | _, _ => False
  end.

(** The lengths around the chunk size: what reaches the wire. *)
Definition wire_lengths (n : Z) : option (error_code * list Z) :=
  match TcpConnection.write TcpConnection.fresh (repeat Sent 10) []
                            (repeat x2a (Z.to_nat n)) with
  | Fired r => Some (TcpConnection.w_error r, map size (TcpConnection.w_wire r))
  | _ => None
  end.

End StreamVocabulary.

Definition map_outcome {A B : Type} (f : A -> B) (o : outcome A) : outcome B :=
  match o with
  | Fired a => Fired (f a)
  | Pending => Pending
  | Undefined => Undefined
  | OutOfFuel => OutOfFuel
  end.

(** The part of a stream connection that a datagram connection has too. *)
Definition as_udp (c : TcpConnection.tcp_connection) : UdpConnection.udp_connection :=
  {| UdpConnection.write_buffer_ := TcpConnection.write_buffer_ c;
     UdpConnection.outgoing_data_ := TcpConnection.outgoing_data_ c |}.

Definition as_udp_step (st : TcpConnection.send_step) : UdpConnection.send_step :=
  {| UdpConnection.step_sent := TcpConnection.step_sent st;
     UdpConnection.step_scratch := TcpConnection.step_scratch st;
     UdpConnection.step_increment := TcpConnection.step_increment st;
     UdpConnection.step_transferred := TcpConnection.step_transferred st |}.

Definition as_udp_done (r : TcpConnection.write_done) : UdpConnection.write_done :=
  {| UdpConnection.w_error := TcpConnection.w_error r;
     UdpConnection.w_conn := as_udp (TcpConnection.w_conn r);
     UdpConnection.w_peer := TcpConnection.w_peer r;
     UdpConnection.w_wire := TcpConnection.w_wire r;
     UdpConnection.w_steps := map as_udp_step (TcpConnection.w_steps r) |}.

Section ListenerVocabulary.
Import TcpListener.

(** The calls of the handler that a row of accepted peers leads to. *)
Definition welcomes (h : nat) (peers : list nat) : list notification :=
  map (fun peer => {| n_handler := h; n_error := success; n_connection := Some peer |})
      peers.

(** The call of the handler for an accept that ended with an error. *)
Definition refusal (h : nat) (e : positive) : notification :=
  {| n_handler := h; n_error := Zpos e; n_connection := None |}.

(** The peers that a row of work accepts. *)
Fixpoint peers_of (ws : list work) : list nat :=
  match ws with
  | [] => []
  | Completes (Accepted peer) :: ws' => peer :: peers_of ws'
  | _ :: ws' => peers_of ws'
  end.

(** No accept fails in a row of work. *)
Definition all_accepted (ws : list work) : Prop :=
  forall e, ~ In (Completes (AcceptFailed e)) ws.

(** A started listener: the handler is set, the acceptor is open, one
    accept is armed and the workers run. *)
Definition accepting (h : nat) (l : tcp_listener) : Prop :=
  connection_handler_ l = Some h /\ outstanding l = 1%nat
  /\ acceptor_open l = true /\ working l = true.

(** A listener whose chain has ended: no accept is armed and no completion
    is queued. *)
Definition silent (l : tcp_listener) : Prop :=
  outstanding l = 0%nat /\ posted l = [].

End ListenerVocabulary.

Definition invalid_lock : exception := runtime_error "Invalid lock".

Section SynchronizerVocabulary.
Import Synchronizer.

(** A wait that goes on: the thread leaves when the flag is up at the call
    or at one of its wake-ups, and the flag is up then; otherwise it stays
    blocked, with the flag down. *)
Definition waited (s : synchronizer) (wakeups : list bool) : ending unit synchronizer :=
  if _condition_met s || existsb (fun flag => flag) wakeups
  then Returns tt {| _condition_met := true |}
  else Blocks {| _condition_met := false |}.

(** A timed wait that goes on.  Of the looks at the flag and the clock, at
    the call and at every wake-up, the first one that finds the flag up or
    the deadline reached ends the wait, and the flag it finds is returned;
    with no such look the thread stays blocked, with the flag down. *)
Definition timed_waited (s : synchronizer) (deadline now : Z) (wakeups : list (bool * Z))
  : ending bool synchronizer :=
  match find (fun look => fst look || (deadline <=? snd look))
             ((_condition_met s, now) :: wakeups) with
  | Some (flag, _) => Returns flag {| _condition_met := flag |}
  | None => Blocks {| _condition_met := false |}
  end.

End SynchronizerVocabulary.

Section QueueVocabulary.
Import ConcurrentQueue.
Context {A : Type}.
Implicit Types (q : concurrent_queue A) (wakes : list (wake A)).

(** The first wake-up that is not spurious, if any. *)
Fixpoint first_news wakes : option (wake A) :=
  match wakes with
  | [] => None
  | Notified [] :: wakes' => first_news wakes'
  | news :: _ => Some news
  end.

(** The counter tells the number of stored elements. *)
Definition counted q : Prop := _size q = Z.of_nat (length (_container q)).

End QueueVocabulary.

(** ** transport/debug/log.hpp *)
Module Log.

(** What [fprintf] wrote, character by character. *)
Definition output : Type := list ascii.

Definition newline : ascii := ascii_of_nat 10.

(** [(uint8_t)buff[i]] *)
Definition value (b : byte) : N := Byte.to_N b.

(** One digit of ["%02X"]. *)
Definition hex_digit (n : N) : ascii :=
  nth (N.to_nat n) (list_ascii_of_string "0123456789ABCDEF") "0"%char.

(** [fprintf(dest, "%02X ", (uint8_t)buff[i])] *)
Definition hex02 (b : byte) : output :=
  [hex_digit (value b / 16)%N; hex_digit (value b mod 16)%N; " "%char].

(** [if (c < ' ' || c > '~') c = '.';] then ["%c"].  Bytes from 128 on
    are negative where [char] is signed and above ['~'] where it is not: a
    dot either way. *)
Definition shown (b : byte) : ascii :=
  if ((value b <? 32) || (126 <? value b))%N then "."%char else ascii_of_byte b.

(** [fprintf(dest, "-- ")] *)
Definition filler : output := ["-"%char; "-"%char; " "%char].

(** One turn of the [while] loop, on the bytes of the line (16 at most):
    the hex column, the filler up to 16 slots, the text column, the newline. *)
Definition dump_line (line : list byte) : output :=
  flat_map hex02 line
  ++ concat (repeat filler (16 - List.length line))
  ++ map shown line
  ++ [newline].

(** [while (buff_pos < len)]: a line for every 16 bytes; [fuel] bounds the
    number of lines. *)
Fixpoint dump_lines (fuel : nat) (buff : list byte) : output :=
  match fuel, buff with
  | _, [] => []
  | O, _ :: _ => []
  | S fuel', _ :: _ => dump_line (firstn 16 buff) ++ dump_lines fuel' (skipn 16 buff)
  end.

(** [__DUMP_BUFFER(dest, title, inbuff, inlen)] on a buffer of [char];
    [None] when [inlen] reaches past the buffer. *)
Definition dump_buffer (title : string) (inbuff : list byte) (inlen : Z)
  : option output :=
  if (0 <=? inlen) && (inlen <=? size inbuff)
  then Some (list_ascii_of_string title ++ [" "%char; "{"%char; newline]
             ++ dump_lines (Z.to_nat inlen) (take inlen inbuff)
             ++ ["}"%char; newline])
  else None.

End Log.

(** Reading a dump back. *)
Section LogVocabulary.
Import Log.

Definition unhex (a : ascii) : option N :=
  match find (fun n => Ascii.eqb (hex_digit (N.of_nat n)) a) (seq 0 16) with
  | Some n => Some (N.of_nat n)
  | None => None
  end.

(** The bytes of the hex column of a line: up to [slots] slots, each a
    byte in hex or the filler, which ends the column. *)
Fixpoint decode_slots (slots : nat) (line : output) : option (list byte) :=
  match slots, line with
  | S slots', high :: low :: _ :: rest =>
      if Ascii.eqb high "-"%char then Some []
      else
        match unhex high, unhex low with
        | Some h, Some l =>
            match Byte.of_N (16 * h + l), decode_slots slots' rest with
            | Some b, Some bs => Some (b :: bs)
            | _, _ => None
            end
        | _, _ => None
        end
  | O, _ => Some []
  | _, _ => None
  end.

(** What follows the next newline. *)
Fixpoint skip_line (out : output) : output :=
  match out with
  | [] => []
  | c :: rest => if Ascii.eqb c newline then rest else skip_line rest
  end.

(** The bytes of the lines of a dump. *)
Fixpoint decode_lines (fuel : nat) (out : output) : option (list byte) :=
  match fuel, out with
  | _, [] => Some []
  | O, _ :: _ => None
  | S fuel', _ :: _ =>
      match decode_slots 16 out, decode_lines fuel' (skip_line out) with
      | Some line, Some rest => Some (line ++ rest)
      | _, _ => None
      end
  end.

(** The characters from [' '] to ['~']. *)
Definition printable (a : ascii) : bool :=
  (32 <=? N_of_ascii a)%N && (N_of_ascii a <=? 126)%N.

(** An output with no newline in it. *)
Definition unbroken (out : output) : Prop :=
  Forall (fun c => Ascii.eqb c newline = false) out.

(** The part of a line before its newline. *)
Definition line_body (line : list byte) : output :=
  flat_map hex02 line ++ concat (repeat filler (16 - length line)) ++ map shown line.

End LogVocabulary.

(** ** Histories and wires *)

(** The socket of the peer of a writer: every chunk that was physically
    sent arrives as one segment. *)
Definition socket_of_wire (w : Asio.wire) : Asio.stream_socket := map Asio.Packet w.

Section QueueHistories.
Import ConcurrentQueue.
Context {A : Type}.

(** [n] calls of [pop()] in a row while nobody else touches the queue; a
    call that would wait ends the row. *)
Fixpoint drain (n : nat) (q : concurrent_queue A) : list A * concurrent_queue A :=
  match n with
  | O => ([], q)
  | S n' =>
      match pop q [] with
      | Returns front q' => let (more, q'') := drain n' q' in (front :: more, q'')
      | _ => ([], q)
      end
  end.

(** The calls a single thread makes on a queue. *)
Inductive operation : Type :=
| Push (element : A)
| Pop
| Clear.

(** One call, on the queue and on the count of the elements that [clear]
    has dropped so far.  A [pop()] on an empty container would wait: it is
    left out of the history. *)
Definition perform (state : concurrent_queue A * nat) (o : operation)
  : concurrent_queue A * nat :=
  let (q, dropped) := state in
  match o with
  | Push element => (push q element, dropped)
  | Pop =>
      match pop q [] with
      | Returns _ q' => (q', dropped)
      | _ => (q, dropped)
      end
  | Clear => (clear q, (dropped + length (_container q))%nat)
  end.

Definition history (ops : list operation) : concurrent_queue A * nat :=
  fold_left perform ops (make, O).

(** The first elements that a wake-up brings to a thread in [pop()], which
    sits through spurious wake-ups. *)
Fixpoint first_push (wakes : list (wake A)) : option (list A) :=
  match wakes with
  | [] => None
  | Notified (front :: pushed) :: _ => Some (front :: pushed)
  | _ :: wakes' => first_push wakes'
  end.

End QueueHistories.

(** ** Lists measured in [Z] *)
Section ListFacts.
Context {A : Type}.
Implicit Types (l k : list A) (n m : Z).

Lemma size_nonneg l : 0 <= size l.
Proof. unfold size. lia. Qed.

Lemma size_nil : size (@nil A) = 0.
Proof. reflexivity. Qed.

Lemma size_app l k : size (l ++ k) = size l + size k.
Proof. unfold size. rewrite length_app. lia. Qed.

Lemma size_take n l : 0 <= n -> size (take n l) = Z.min n (size l).
Proof. intros Hn. unfold size, take. rewrite length_firstn. lia. Qed.

Lemma size_drop n l : 0 <= n -> size (drop n l) = Z.max 0 (size l - n).
Proof. intros Hn. unfold size, drop. rewrite length_skipn. lia. Qed.

Lemma take_drop n l : take n l ++ drop n l = l.
Proof. apply firstn_skipn. Qed.

Lemma take_all n l : size l <= n -> take n l = l.
Proof. intros H. apply firstn_all2. unfold size in H. lia. Qed.

Lemma drop_all n l : size l <= n -> drop n l = [].
Proof. intros H. apply skipn_all2. unfold size in H. lia. Qed.

Lemma take_nonpos n l : n <= 0 -> take n l = [].
Proof. intros H. unfold take. replace (Z.to_nat n) with O by lia. reflexivity. Qed.

Lemma drop_nonpos n l : n <= 0 -> drop n l = l.
Proof. intros H. unfold drop. replace (Z.to_nat n) with O by lia. reflexivity. Qed.

Lemma take_app_le n l k : n <= size l -> take n (l ++ k) = take n l.
Proof.
  intros H. unfold take. rewrite firstn_app.
  replace (Z.to_nat n - length l)%nat with O by (unfold size in H; lia).
  simpl. apply app_nil_r.
Qed.

Lemma take_app_ge n l k : size l <= n -> take n (l ++ k) = l ++ take (n - size l) k.
Proof.
  intros H. unfold take. rewrite firstn_app. unfold size in *.
  rewrite firstn_all2 by lia. f_equal. f_equal. lia.
Qed.

Lemma drop_app_le n l k : 0 <= n <= size l -> drop n (l ++ k) = drop n l ++ k.
Proof.
  intros H. unfold drop. rewrite skipn_app.
  replace (Z.to_nat n - length l)%nat with O by (unfold size in H; lia).
  reflexivity.
Qed.

Lemma drop_app_ge n l k : size l <= n -> drop n (l ++ k) = drop (n - size l) k.
Proof.
  intros H. unfold drop. rewrite skipn_app. unfold size in *.
  rewrite skipn_all2 by lia. simpl. f_equal. lia.
Qed.

Lemma take_add n m l : 0 <= n -> 0 <= m -> take (n + m) l = take n l ++ take m (drop n l).
Proof.
  intros Hn Hm. unfold take, drop.
  rewrite <- (firstn_skipn (Z.to_nat n) l) at 1.
  rewrite firstn_app.
  assert (Hlen : (length (firstn (Z.to_nat n) l) <= Z.to_nat n)%nat)
    by (rewrite length_firstn; lia).
  rewrite firstn_all2 by lia.
  f_equal.
  destruct (Nat.le_gt_cases (Z.to_nat n) (length l)) as [Hle | Hgt].
  - rewrite length_firstn. f_equal. lia.
  - rewrite (skipn_all2 l) by lia. now rewrite !firstn_nil.
Qed.

Lemma drop_drop n m l : 0 <= n -> 0 <= m -> drop m (drop n l) = drop (n + m) l.
Proof.
  intros Hn Hm. unfold drop. rewrite skipn_skipn. f_equal. lia.
Qed.

Lemma size_repeat (x : A) (n : nat) : size (repeat x n) = Z.of_nat n.
Proof. unfold size. now rewrite repeat_length. Qed.

End ListFacts.

Lemma size_resize n v : 0 <= n -> size (resize n v) = n.
Proof.
  intros Hn. unfold resize. rewrite size_app, size_take, size_repeat by assumption.
  pose proof (size_nonneg v). lia.
Qed.

Lemma wrap_small z : 0 <= z < SIZE_T_MODULUS -> wrap z = z.
Proof. intros H. unfold wrap. now apply Z.mod_small. Qed.

Lemma memcpy_in_range dst doff src soff n :
  0 <= doff -> 0 <= soff -> 0 <= n -> doff + n <= size dst -> soff + n <= size src ->
  memcpy dst doff src soff n
  = Some (take doff dst ++ take n (drop soff src) ++ drop (doff + n) dst).
Proof.
  intros. unfold memcpy.
  repeat match goal with
         | |- context [?a <=? ?b] => destruct (Z.leb_spec a b); try lia
         end.
  reflexivity.
Qed.

(** ** The stream connection: reads *)

Section TcpRead.
Import Asio TcpConnection.

Lemma read_condition_stops bytes :
  stops_at bytes (fun error len => is_error error || (bytes <=? len)).
Proof. split; intros; reflexivity. Qed.

Lemma async_read_fills condition bytes room s :
  stops_at bytes condition -> room <= bytes ->
  forall got,
    size got <= room -> room <= size got + size (stream_bytes s) ->
    exists s',
      async_read condition room got s
      = Fired (success, got ++ take (room - size got) (stream_bytes s), s')
      /\ stream_bytes s' = drop (room - size got) (stream_bytes s)
      /\ first_failure s' = first_failure s.
Proof.
  intros [Hok Herr] Hroom.
  induction s as [| seg s IH]; intros got Hgot Havail.
  - simpl in *. rewrite size_nil in Havail.
    destruct (Z.leb_spec room (size got)); [|lia].
    rewrite orb_true_r.
    exists []. rewrite take_nonpos, app_nil_r by lia.
    rewrite drop_nonpos by lia. auto.
  - simpl async_read. rewrite Hok.
    destruct (Z.leb_spec bytes (size got)); [simpl orb; cbv iota|].
    { exists (seg :: s). rewrite take_nonpos, drop_nonpos, app_nil_r by lia. auto. }
    destruct (Z.leb_spec room (size got)); simpl orb; cbv iota.
    { exists (seg :: s). rewrite take_nonpos, drop_nonpos, app_nil_r by lia. auto. }
    destruct seg as [bs | e].
    + simpl in Havail. rewrite size_app in Havail.
      destruct (Z.leb_spec (size bs) (room - size got)).
      * destruct (IH (got ++ bs)) as (s' & Hrun & Hbytes & Hfail).
        { rewrite size_app. lia. }
        { rewrite size_app. lia. }
        exists s'. rewrite Hrun. rewrite size_app in *. simpl.
        rewrite take_app_ge, drop_app_ge by lia.
        rewrite <- app_assoc.
        replace (room - (size got + size bs)) with (room - size got - size bs) in * by lia.
        auto.
      * exists (Packet (drop (room - size got) bs) :: s). simpl.
        rewrite take_app_le, drop_app_le by lia. auto.
    + simpl in Havail. rewrite size_nil in Havail. lia.
Qed.

Lemma async_read_pends condition bytes room s :
  stops_at bytes condition -> room <= bytes ->
  first_failure s = None ->
  forall got,
    size got + size (stream_bytes s) < room ->
    async_read condition room got s = Pending.
Proof.
  intros [Hok Herr] Hroom.
  induction s as [| seg s IH]; intros Hnone got Havail.
  - simpl in *. rewrite Hok. rewrite size_nil in Havail.
    destruct (Z.leb_spec bytes (size got)); [lia|].
    destruct (Z.leb_spec room (size got)); [lia|]. reflexivity.
  - simpl async_read. rewrite Hok.
    pose proof (size_nonneg (stream_bytes (seg :: s))).
    destruct (Z.leb_spec bytes (size got)); [lia|].
    destruct (Z.leb_spec room (size got)); [lia|]. simpl orb. cbv iota.
    destruct seg as [bs | e']; [|discriminate].
    simpl in *. rewrite size_app in *.
    pose proof (size_nonneg (stream_bytes s)).
    destruct (Z.leb_spec (size bs) (room - size got)); [|lia].
    apply IH; [assumption|]. rewrite size_app. lia.
Qed.

Lemma async_read_fails condition bytes room s e :
  stops_at bytes condition -> room <= bytes ->
  first_failure s = Some e ->
  forall got,
    size got + size (stream_bytes s) < room ->
    exists s',
      async_read condition room got s = Fired (Zpos e, got ++ stream_bytes s, s').
Proof.
  intros [Hok Herr] Hroom.
  induction s as [| seg s IH]; intros Hfail got Havail.
  - discriminate.
  - simpl async_read. rewrite Hok.
    pose proof (size_nonneg (stream_bytes (seg :: s))).
    destruct (Z.leb_spec bytes (size got)); [lia|].
    destruct (Z.leb_spec room (size got)); [lia|]. simpl orb. cbv iota.
    destruct seg as [bs | e'].
    + simpl in *. rewrite size_app in *.
      pose proof (size_nonneg (stream_bytes s)).
      destruct (Z.leb_spec (size bs) (room - size got)); [|lia].
      destruct (IH Hfail (got ++ bs)) as (s' & Hrun).
      { rewrite size_app. lia. }
      exists s'. rewrite Hrun. now rewrite <- app_assoc.
    + simpl in *. injection Hfail as ->. rewrite Herr.
      exists s. now rewrite app_nil_r.
Qed.

Lemma take_received_into array got :
  take (size got) (received_into array got) = got.
Proof.
  unfold received_into. rewrite take_app_le by lia.
  apply take_all. lia.
Qed.

Lemma size_received_into array got :
  size got <= size array -> size (received_into array got) = size array.
Proof.
  intros H. unfold received_into, size in *.
  rewrite length_app, length_skipn. lia.
Qed.

Lemma size_splice buffer offset got :
  0 <= offset -> offset + size got <= size buffer ->
  size (splice buffer offset got) = size buffer.
Proof.
  intros Hoff Hfit. pose proof (size_nonneg got). unfold splice.
  rewrite !size_app, size_take, size_drop by lia. lia.
Qed.

Lemma splice_nil buffer offset : splice buffer offset [] = buffer.
Proof. unfold splice. rewrite size_nil, Z.add_0_r. apply take_drop. Qed.

Lemma splice_splice buffer offset got more :
  0 <= offset -> offset + size got + size more <= size buffer ->
  splice (splice buffer offset got) (offset + size got) more
  = splice buffer offset (got ++ more).
Proof.
  intros Hoff Hfit.
  pose proof (size_nonneg got). pose proof (size_nonneg more).
  unfold splice.
  rewrite take_app_ge by (rewrite size_take by lia; lia).
  rewrite size_take by lia.
  replace (offset + size got - Z.min offset (size buffer)) with (size got) by lia.
  rewrite take_app_ge by lia. rewrite Z.sub_diag, (take_nonpos 0) by lia.
  rewrite app_nil_r.
  rewrite drop_app_ge by (rewrite size_take by lia; lia).
  rewrite size_take by lia.
  rewrite drop_app_ge by lia.
  rewrite drop_drop by lia.
  rewrite size_app, <- !app_assoc. do 4 f_equal. lia.
Qed.

(** One chunk that arrives whole: what [read_chunked] goes on with. *)
Lemma read_chunked_chunk fuel c s bytes buffer read_bytes log :
  0 <= bytes -> 0 <= read_bytes -> read_bytes + bytes <= size buffer ->
  size buffer < SIZE_T_MODULUS ->
  size (read_buffer_ c) = BUFFER_LENGTH ->
  Z.min bytes BUFFER_LENGTH <= size (stream_bytes s) ->
  let room := Z.min bytes BUFFER_LENGTH in
  let got := take room (stream_bytes s) in
  let c' := set_read_buffer c (received_into (read_buffer_ c) got) in
  let log' := log ++ [{| chunk_bytes := bytes; chunk_offset := read_bytes;
                         chunk_data := got |}] in
  let buffer' := splice buffer read_bytes got in
  exists s',
    stream_bytes s' = drop room (stream_bytes s)
    /\ first_failure s' = first_failure s
    /\ size got = room
    /\ read_chunked (S fuel) c s bytes buffer read_bytes log
       = if bytes - room >? 0
         then read_chunked fuel c' s' (bytes - room) buffer' (read_bytes + room) log'
         else Fired {| r_error := success; r_buffer := buffer'; r_conn := c';
                       r_socket := s'; r_chunks := log' |}.
Proof.
  intros Hbytes Hoff Hfit Hmax Harr Havail room got c' log' buffer'.
  assert (HC : BUFFER_LENGTH = 1024) by reflexivity.
  assert (Hgot : size got = room).
  { subst got. rewrite size_take by lia. lia. }
  simpl read_chunked.
  replace (if bytes <? BUFFER_LENGTH then bytes else BUFFER_LENGTH) with room
    by (subst room; destruct (Z.ltb_spec bytes BUFFER_LENGTH); lia).
  destruct (async_read_fills _ bytes room s (read_condition_stops bytes) ltac:(lia) [])
    as (s' & Hrun & Hrest & Hfail).
  { rewrite size_nil. lia. }
  { rewrite size_nil. lia. }
  rewrite size_nil, Z.sub_0_r in *. simpl app in Hrun. fold got in Hrun.
  exists s'. repeat split; auto.
  rewrite Hrun. cbn [bind]. change (is_error success) with false. cbv iota.
  fold c'. rewrite memcpy_in_range; try lia.
  2:{ subst c'. simpl. rewrite size_received_into; lia. }
  cbn [bind defined]. change (drop 0 ?l) with l.
  subst c'. simpl read_buffer_. rewrite take_received_into.
  rewrite Hgot. rewrite !wrap_small by lia.
  unfold buffer', splice. now rewrite Hgot.
Qed.

Lemma read_chunked_succeeds fuel :
  forall c s bytes buffer read_bytes log,
    0 <= bytes -> 0 <= read_bytes -> read_bytes + bytes <= size buffer ->
    size buffer < SIZE_T_MODULUS ->
    size (read_buffer_ c) = BUFFER_LENGTH ->
    bytes <= size (stream_bytes s) ->
    bytes < Z.of_nat fuel ->
    exists r new,
      read_chunked fuel c s bytes buffer read_bytes log = Fired r
      /\ r_error r = success
      /\ r_buffer r = splice buffer read_bytes (take bytes (stream_bytes s))
      /\ stream_bytes (r_socket r) = drop bytes (stream_bytes s)
      /\ first_failure (r_socket r) = first_failure s
      /\ r_chunks r = log ++ new
      /\ Z.of_nat (length new) = Z.max 1 ((bytes + BUFFER_LENGTH - 1) / BUFFER_LENGTH)
      /\ chained bytes read_bytes new
      /\ payload new = take bytes (stream_bytes s)
      /\ size (read_buffer_ (r_conn r)) = BUFFER_LENGTH.
Proof.
  induction fuel as [| fuel IH]; intros c s bytes buffer read_bytes log
    Hbytes Hoff Hfit Hmax Harr Havail Hfuel; [lia|].
  assert (HC : BUFFER_LENGTH = 1024) by reflexivity.
  destruct (read_chunked_chunk fuel c s bytes buffer read_bytes log)
    as (s' & Hrest & Hfail & Hgot & Hstep); try lia.
  cbv zeta in Hstep. rewrite Hstep. clear Hstep.
  set (room := Z.min bytes BUFFER_LENGTH) in *.
  set (got := take room (stream_bytes s)) in *.
  set (k := {| chunk_bytes := bytes; chunk_offset := read_bytes; chunk_data := got |}).
  assert (Htake : take bytes (stream_bytes s)
                  = got ++ take (bytes - room) (drop room (stream_bytes s))).
  { replace bytes with (room + (bytes - room)) at 1 by lia.
    now rewrite take_add by lia. }
  destruct (Z.gtb_spec (bytes - room) 0) as [Hmore | Hdone].
  - destruct (IH (set_read_buffer c (received_into (read_buffer_ c) got)) s'
                 (bytes - room) (splice buffer read_bytes got) (read_bytes + room)
                 (log ++ [k]))
      as (r & new & Hr & Herr & Hbuf & Hsock & Hff & Hlog & Hcount & Hchain & Hpay & Harr');
      try lia.
    { rewrite size_splice; lia. }
    { rewrite size_splice; lia. }
    { simpl. rewrite size_received_into; lia. }
    { rewrite Hrest, size_drop by lia. lia. }
    exists r, (k :: new). split; [exact Hr|].
    split; [exact Herr|].
    split.
    { rewrite Hbuf, Hrest, Htake, <- Hgot. apply splice_splice; [lia|].
      rewrite size_take, size_drop by lia. lia. }
    split.
    { rewrite Hsock, Hrest, drop_drop by lia. f_equal. lia. }
    split; [congruence|].
    split.
    { rewrite Hlog. now rewrite <- app_assoc. }
    split.
    { change (length (k :: new)) with (S (length new)).
      rewrite Nat2Z.inj_succ, Hcount. subst room. rewrite HC in *.
      replace (bytes + 1024 - 1) with (bytes - Z.min bytes 1024 + 1024 - 1 + 1 * 1024) by lia.
      rewrite Z.div_add by lia.
      assert (1 <= (bytes - Z.min bytes 1024 + 1024 - 1) / 1024)
        by (apply Z.div_le_lower_bound; lia).
      lia. }
    split.
    { simpl. rewrite Hgot. repeat split; auto. }
    split; [|exact Harr'].
    unfold payload in *. simpl. now rewrite Hpay, Hrest, Htake.
  - assert (Hall : room = bytes) by lia.
    eexists _, [k]. split; [reflexivity|]. simpl.
    repeat split; auto.
    + subst got. now rewrite Hall.
    + now rewrite Hrest, Hall.
    + rewrite HC. assert (Hle : (bytes + 1024 - 1) / 1024 <= 1).
      { apply Z.lt_succ_r, Z.div_lt_upper_bound; lia. }
      lia.
    + lia.
    + unfold payload. simpl. rewrite app_nil_r. subst got. now rewrite Hall.
    + rewrite size_received_into; lia.
Qed.

Lemma chained_copied log :
  forall bytes offset before after,
    chained bytes offset log -> size before = offset ->
    Forall (fun k => take (size (chunk_data k))
                          (drop (chunk_offset k) (before ++ payload log ++ after))
                     = chunk_data k) log.
Proof.
  induction log as [| k log IH]; intros bytes offset before after Hchain Hoff;
    constructor.
  - destruct Hchain as (_ & Hk & _). rewrite Hk, <- Hoff.
    rewrite drop_app_ge, Z.sub_diag, drop_nonpos by lia.
    unfold payload. simpl. rewrite <- app_assoc. rewrite take_app_le by lia.
    apply take_all. lia.
  - destruct Hchain as (_ & _ & _ & Hchain).
    specialize (IH _ _ (before ++ chunk_data k) after Hchain).
    unfold payload in *. simpl. rewrite <- !app_assoc in *.
    apply IH. rewrite size_app. lia.
Qed.

Lemma chained_bounded log :
  forall bytes offset,
    chained bytes offset log ->
    Forall (fun k => size (chunk_data k) <= Z.min (chunk_bytes k) BUFFER_LENGTH) log.
Proof.
  induction log as [| k log IH]; intros bytes offset Hchain; constructor.
  - destruct Hchain as (Hb & _ & Hlen & _). rewrite Hb. lia.
  - destruct Hchain as (_ & _ & _ & Hchain). eauto.
Qed.

End TcpRead.

Section TcpReadClaims.
Import Asio TcpConnection.

(** A read whose stream brings fewer bytes than it wants: it ends with the
    first failure of the stream, or waits for ever when there is none. *)
Lemma read_chunked_short fuel :
  forall c s bytes buffer read_bytes log,
    0 <= bytes -> 0 <= read_bytes -> read_bytes + bytes <= size buffer ->
    size buffer < SIZE_T_MODULUS ->
    size (read_buffer_ c) = BUFFER_LENGTH ->
    size (stream_bytes s) < bytes ->
    bytes < Z.of_nat fuel ->
    let whole := BUFFER_LENGTH * (size (stream_bytes s) / BUFFER_LENGTH) in
    match first_failure s with
    | Some e =>
        exists r,
          read_chunked fuel c s bytes buffer read_bytes log = Fired r
          /\ r_error r = Zpos e
          /\ r_buffer r = splice buffer read_bytes (take whole (stream_bytes s))
    | None => read_chunked fuel c s bytes buffer read_bytes log = Pending
    end.
Proof.
  induction fuel as [| fuel IH]; intros c s bytes buffer read_bytes log
    Hbytes Hoff Hfit Hmax Harr Havail Hfuel whole; [lia|].
  assert (HC : BUFFER_LENGTH = 1024) by reflexivity.
  pose proof (size_nonneg (stream_bytes s)) as Hnn.
  destruct (Z.le_gt_cases (Z.min bytes BUFFER_LENGTH) (size (stream_bytes s)))
    as [Henough | Hshort].
  - (* a whole chunk arrives before the stream ends *)
    destruct (read_chunked_chunk fuel c s bytes buffer read_bytes log)
      as (s' & Hrest & Hfail & Hgot & Hstep); try lia.
    cbv zeta in Hstep. rewrite Hstep. clear Hstep.
    set (room := Z.min bytes BUFFER_LENGTH) in *.
    set (got := take room (stream_bytes s)) in *.
    assert (Hfull : room = 1024) by lia.
    destruct (Z.gtb_spec (bytes - room) 0) as [Hmore | Hdone]; [|lia].
    match goal with
    | |- context [read_chunked fuel ?c' s' _ ?buffer' _ ?log'] =>
        pose proof (IH c' s' (bytes - room) buffer' (read_bytes + room) log') as Hnext
    end.
    cbv zeta in Hnext.
    rewrite Hfail, Hrest, size_drop, size_splice in Hnext by lia.
    simpl read_buffer_ in Hnext. rewrite size_received_into in Hnext by lia.
    specialize (Hnext ltac:(lia) ltac:(lia) ltac:(lia) ltac:(lia) Harr ltac:(lia)
                      ltac:(lia)).
    destruct (first_failure s) as [e |]; [|exact Hnext].
    destruct Hnext as (r & Hr & Herr & Hbuf).
    exists r. split; [exact Hr|]. split; [exact Herr|].
    rewrite Hbuf. subst whole.
    set (avail := size (stream_bytes s)) in *.
    assert (Hdiv : avail / BUFFER_LENGTH = (avail - room) / BUFFER_LENGTH + 1).
    { rewrite HC, Hfull. replace avail with (avail - 1024 + 1 * 1024) at 1 by lia.
      apply Z.div_add. lia. }
    rewrite Z.max_r by lia.
    set (q := (avail - room) / BUFFER_LENGTH) in *.
    assert (Hq : 0 <= q) by (apply Z.div_pos; lia).
    assert (Hwhole : BUFFER_LENGTH * q <= avail - room).
    { subst q. apply Z.mul_div_le. reflexivity. }
    replace (read_bytes + room) with (read_bytes + size got) by lia.
    rewrite splice_splice.
    + f_equal. rewrite Hdiv.
      replace (BUFFER_LENGTH * (q + 1)) with (room + BUFFER_LENGTH * q) by lia.
      rewrite take_add by lia. reflexivity.
    + lia.
    + rewrite size_take, size_drop by lia. fold avail. lia.
  - (* the stream ends inside this chunk *)
    simpl read_chunked.
    set (room := if bytes <? BUFFER_LENGTH then bytes else BUFFER_LENGTH).
    assert (Hroom : room = Z.min bytes BUFFER_LENGTH).
    { subst room. destruct (Z.ltb_spec bytes BUFFER_LENGTH); lia. }
    destruct (first_failure s) as [e |] eqn:Hfail.
    + destruct (async_read_fails _ bytes room s e (read_condition_stops bytes)
                                 ltac:(lia) Hfail [])
        as (s' & Hrun).
      { rewrite size_nil. lia. }
      rewrite Hrun. simpl app. cbn [bind].
      change (is_error (Z.pos e)) with true. cbv iota.
      eexists. split; [reflexivity|]. simpl. split; [reflexivity|].
      subst whole. rewrite Z.div_small by lia. rewrite Z.mul_0_r.
      rewrite (take_nonpos 0) by lia. symmetry. apply splice_nil.
    + rewrite (async_read_pends _ bytes room s (read_condition_stops bytes)
                                ltac:(lia) Hfail []); [reflexivity|].
      rewrite size_nil. lia.
Qed.

(** C1. For every [n >= 0], [read(n)] over a socket that delivers at least
    [n] bytes before any failure calls the callback without error and with a
    buffer of exactly [n] bytes, the first [n] bytes of the stream in order;
    the read goes through [max(1, ceil(n / 1024))] chunks, each asked for the
    bytes still missing, each receiving [min(missing, 1024)] bytes into the
    scratch buffer, which sit in the result at the offset where the chunk
    before ended. *)
Theorem read_returns_exactly_n (c : tcp_connection) (s : stream_socket) (n : Z) :
  0 <= n < SIZE_T_MODULUS ->
  arrays_ok c ->
  n <= size (stream_bytes s) ->
  exists r,
    read c s n = Fired r
    /\ r_error r = success
    /\ size (r_buffer r) = n
    /\ r_buffer r = take n (stream_bytes s)
    /\ stream_bytes (r_socket r) = drop n (stream_bytes s)
    /\ chained n 0 (r_chunks r)
    /\ payload (r_chunks r) = r_buffer r
    /\ Z.of_nat (length (r_chunks r)) = Z.max 1 ((n + BUFFER_LENGTH - 1) / BUFFER_LENGTH)
    /\ Forall (fun k => size (chunk_data k) <= Z.min (chunk_bytes k) BUFFER_LENGTH)
              (r_chunks r)
    /\ Forall (fun k => take (size (chunk_data k)) (drop (chunk_offset k) (r_buffer r))
                        = chunk_data k) (r_chunks r).
Proof.
  intros Hn [Hrd _] Havail.
  unfold read, read_into.
  set (incoming := resize n (incoming_data_ c)).
  assert (Hin : size incoming = n) by (apply size_resize; lia).
  destruct (read_chunked_succeeds (S (Z.to_nat n)) (set_incoming_data c incoming) s n
              incoming 0 [])
    as (r & new & Hr & Herr & Hbuf & Hsock & _ & Hlog & Hcount & Hchain & Hpay & _);
    try lia; try assumption.
  rewrite Hr. simpl in Hlog. subst new.
  unfold splice in Hbuf.
  rewrite (take_nonpos 0), Z.add_0_l, size_take, Z.min_l, (drop_all n incoming)
    in Hbuf by lia.
  simpl in Hbuf. rewrite app_nil_r in Hbuf.
  eexists. split; [reflexivity|]. simpl.
  repeat split; auto.
  - rewrite Hbuf, size_take by lia. lia.
  - congruence.
  - eapply chained_bounded; eauto.
  - pose proof (chained_copied (r_chunks r) n 0 [] [] Hchain eq_refl) as Hcopy.
    simpl in Hcopy. rewrite app_nil_r in Hcopy. rewrite Hpay, <- Hbuf in Hcopy.
    exact Hcopy.
Qed.

Lemma read_returns_exactly_n_witness :
  exists r,
    read fresh [Packet [x01; x02]; Packet [x03; x04]] 3 = Fired r
    /\ r_error r = success
    /\ size (r_buffer r) = 3
    /\ r_buffer r = take 3 (stream_bytes [Packet [x01; x02]; Packet [x03; x04]])
    /\ stream_bytes (r_socket r) = drop 3 (stream_bytes [Packet [x01; x02]; Packet [x03; x04]])
    /\ chained 3 0 (r_chunks r)
    /\ payload (r_chunks r) = r_buffer r
    /\ Z.of_nat (length (r_chunks r)) = Z.max 1 ((3 + BUFFER_LENGTH - 1) / BUFFER_LENGTH)
    /\ Forall (fun k => size (chunk_data k) <= Z.min (chunk_bytes k) BUFFER_LENGTH)
              (r_chunks r)
    /\ Forall (fun k => take (size (chunk_data k)) (drop (chunk_offset k) (r_buffer r))
                        = chunk_data k) (r_chunks r).
Proof.
  apply (read_returns_exactly_n fresh [Packet [x01; x02]; Packet [x03; x04]] 3).
  - unfold SIZE_T_MODULUS. lia.
  - split; reflexivity.
  - vm_compute. discriminate.
Defined.

(** C2, as the code has it.  When the stream fails before [n] bytes came,
    [read(n)] calls the callback with the error and with the accumulation
    buffer as it stands: [n] bytes long, the chunks that were completed
    before the failure (whole multiples of 1024 bytes) at its front, the
    rest as [resize] left it.  What came in the failing chunk is not copied. *)
Theorem read_error_hands_over_buffer (c : tcp_connection) (s : stream_socket) (n : Z)
        (e : positive) :
  0 <= n < SIZE_T_MODULUS ->
  arrays_ok c ->
  size (stream_bytes s) < n ->
  first_failure s = Some e ->
  let whole := BUFFER_LENGTH * (size (stream_bytes s) / BUFFER_LENGTH) in
  exists r,
    read c s n = Fired r
    /\ r_error r = Zpos e
    /\ size (r_buffer r) = n
    /\ r_buffer r = take whole (stream_bytes s) ++ drop whole (resize n (incoming_data_ c)).
Proof.
  intros Hn [Hrd _] Havail Hfail whole.
  unfold read, read_into.
  set (incoming := resize n (incoming_data_ c)).
  assert (Hin : size incoming = n) by (apply size_resize; lia).
  pose proof (read_chunked_short (S (Z.to_nat n)) (set_incoming_data c incoming) s n
                incoming 0 []) as Hshort.
  cbv zeta in Hshort. rewrite Hfail in Hshort.
  destruct Hshort as (r & Hr & Herr & Hbuf); try lia; try assumption.
  rewrite Hr. fold whole in Hbuf.
  pose proof (size_nonneg (stream_bytes s)).
  assert (Hwhole : 0 <= whole <= size (stream_bytes s)).
  { subst whole. split.
    - apply Z.mul_nonneg_nonneg; [discriminate | apply Z.div_pos; [lia | reflexivity]].
    - apply Z.mul_div_le. reflexivity. }
  assert (Hpart : size (take whole (stream_bytes s)) = whole)
    by (rewrite size_take by lia; lia).
  eexists. split; [reflexivity|]. simpl.
  split; [exact Herr|]. rewrite Hbuf. split.
  - rewrite size_splice; lia.
  - unfold splice. rewrite (take_nonpos 0), Z.add_0_l, Hpart by lia. reflexivity.
Qed.

Lemma read_error_hands_over_buffer_witness :
  exists r,
    read fresh [Packet [x01; x02]; Failure 104] 3 = Fired r
    /\ r_error r = 104
    /\ size (r_buffer r) = 3
    /\ r_buffer r = [x00; x00; x00].
Proof.
  apply (read_error_hands_over_buffer fresh [Packet [x01; x02]; Failure 104] 3 104).
  - unfold SIZE_T_MODULUS. lia.
  - split; reflexivity.
  - vm_compute. reflexivity.
  - reflexivity.
Defined.

(** X7.  When the stream brings fewer than [n] bytes and no failure, [read(n)]
    never calls its callback.  With the two theorems above: [read] never
    leaves a buffer and never reaches its bound of chunks. *)
Lemma read_waits_for_silent_peer (c : tcp_connection) (s : stream_socket) (n : Z) :
  0 <= n < SIZE_T_MODULUS ->
  arrays_ok c ->
  size (stream_bytes s) < n ->
  first_failure s = None ->
  read c s n = Pending.
Proof.
  intros Hn [Hrd _] Havail Hnone.
  unfold read, read_into.
  set (incoming := resize n (incoming_data_ c)).
  assert (Hin : size incoming = n) by (apply size_resize; lia).
  pose proof (read_chunked_short (S (Z.to_nat n)) (set_incoming_data c incoming) s n
                incoming 0 []) as Hshort.
  cbv zeta in Hshort. rewrite Hnone in Hshort.
  rewrite Hshort; try lia; try assumption. reflexivity.
Qed.

(** C2, as it is worded, fails: a [read(1025)] whose stream brings 1024
    bytes and then an error hands the callback the error together with a
    buffer of 1025 bytes whose first 1024 are the bytes that were received. *)
Lemma read_error_shows_partial_data :
  exists r,
    read fresh [Packet (repeat x41 1024); Failure 104] 1025 = Fired r
    /\ r_error r <> success
    /\ r_buffer r <> []
    /\ size (r_buffer r) = 1025
    /\ take 1024 (r_buffer r) = repeat x41 1024.
Proof.
  eexists. split; [vm_compute; reflexivity|].
  repeat split; try discriminate; vm_compute; reflexivity.
Qed.

End TcpReadClaims.

(** ** The stream and the datagram connection: writes *)

Section TcpWrite.
Import Asio TcpConnection.

Lemma prefix_of_removelast {A : Type} (k : nat) (l : list A) :
  l <> [] ->
  firstn k (removelast l) = take (size (firstn k (removelast l))) l
  /\ size (firstn k (removelast l)) < size l.
Proof.
  intros Hne.
  assert (Hlen : (0 < length l)%nat) by (destruct l; simpl; [congruence | lia]).
  rewrite removelast_firstn_len, firstn_firstn.
  unfold take, size. rewrite length_firstn, Nat2Z.id.
  split.
  - f_equal. lia.
  - lia.
Qed.

(** What a write does, whatever the peer answers. *)
Lemma write_chunked_spec fuel :
  forall c p w sent log,
    size (write_buffer_ c) = BUFFER_LENGTH ->
    0 <= sent <= size (outgoing_data_ c) ->
    size (outgoing_data_ c) < SIZE_T_MODULUS ->
    size (outgoing_data_ c) - sent < Z.of_nat fuel ->
    match write_chunked fuel c p w sent log with
    | Fired r =>
        exists steps chunks,
          w_steps r = log ++ steps
          /\ w_wire r = w ++ chunks
          /\ outgoing_data_ (w_conn r) = outgoing_data_ c
          /\ size (write_buffer_ (w_conn r)) = BUFFER_LENGTH
          /\ sends_chained (outgoing_data_ c) sent steps chunks
          /\ (w_error r = success ->
              concat chunks = drop sent (outgoing_data_ c)
              /\ Z.of_nat (length chunks)
                 = Z.max 1 ((size (outgoing_data_ c) - sent + BUFFER_LENGTH - 1)
                            / BUFFER_LENGTH))
          /\ (w_error r <> success ->
              Z.of_nat (accepts p) * BUFFER_LENGTH < size (outgoing_data_ c) - sent)
    | Pending => Z.of_nat (accepts p) * BUFFER_LENGTH < size (outgoing_data_ c) - sent
    | Undefined => False
    | OutOfFuel => False
    end.
Proof.
  induction fuel as [| fuel IH]; intros c p w sent log Harr Hsent Hmax Hfuel; [lia|].
  assert (HC : BUFFER_LENGTH = 1024) by reflexivity.
  simpl write_chunked.
  set (data := outgoing_data_ c) in *.
  rewrite wrap_small by lia.
  set (increment := if size data - sent <? BUFFER_LENGTH
                    then size data - sent else BUFFER_LENGTH).
  assert (Hinc : increment = Z.min (size data - sent) BUFFER_LENGTH).
  { subst increment. destruct (Z.ltb_spec (size data - sent) BUFFER_LENGTH); lia. }
  rewrite memcpy_in_range by lia. cbn [bind defined].
  rewrite (take_nonpos 0), Z.add_0_l by lia. simpl app.
  set (scratch := take increment (drop sent data) ++ drop increment (write_buffer_ c)).
  assert (Hunsent : size (take increment (drop sent data)) = increment).
  { rewrite size_take, size_drop by lia. lia. }
  assert (Hscratch : take increment scratch = take increment (drop sent data)).
  { subst scratch. rewrite take_app_le by lia. apply take_all. lia. }
  assert (Hsize : size scratch = BUFFER_LENGTH).
  { subst scratch. rewrite size_app, Hunsent, size_drop by lia. lia. }
  rewrite Hscratch.
  set (chunk := take increment (drop sent data)) in *.
  unfold async_write. rewrite Hunsent.
  destruct (Z.eqb_spec increment 0) as [Hzero | Hpos].
  - (* nothing is left to send: an empty send, which completes at once *)
    cbn [bind]. change (is_error success) with false. rewrite Z.add_0_r, wrap_small by lia.
    destruct (Z.eqb_spec sent (size data)); [|lia]. simpl orb. cbv iota.
    eexists [_], [chunk]. split; [reflexivity|]. simpl. repeat split; auto; try lia.
    + rewrite <- Hscratch, Hzero. reflexivity.
    + rewrite app_nil_r. subst chunk. now rewrite Hzero, take_nonpos, drop_all by lia.
    + replace (size data - sent + BUFFER_LENGTH - 1) with 1023 by lia. reflexivity.
  - destruct p as [| [| e k] p']; cbn [bind]; [simpl; lia | |].
    + (* the peer takes the chunk *)
      change (is_error success) with false. rewrite wrap_small by lia.
      destruct (Z.eqb_spec (sent + increment) (size data)) as [Hall | Hmore];
        simpl orb; cbv iota.
      * eexists [_], [chunk]. split; [reflexivity|]. simpl. repeat split; auto; try lia.
        -- rewrite app_nil_r. subst chunk. apply take_all.
           rewrite size_drop by lia. lia.
        -- assert (Hle : (size data - sent + BUFFER_LENGTH - 1) / BUFFER_LENGTH <= 1).
           { apply Z.lt_succ_r, Z.div_lt_upper_bound; lia. }
           lia.
      * match goal with
        | |- context [write_chunked fuel ?c' p' ?w' _ ?log'] =>
            specialize (IH c' p' w' (sent + increment) log')
        end.
        simpl outgoing_data_ in IH. simpl write_buffer_ in IH. fold data in IH.
        specialize (IH Hsize ltac:(lia) Hmax ltac:(lia)).
        destruct (write_chunked fuel _ p' _ _ _) as [r | | |]; auto;
          [| change (accepts (Sent :: p')) with (S (accepts p')); lia].
        destruct IH as (steps & chunks & Hsteps & Hwire & Hdata & Hwb & Hchain & Hok & Hbad).
        eexists (_ :: steps), (chunk :: chunks).
        rewrite Hsteps, Hwire, <- !app_assoc.
        split; [reflexivity|]. simpl.
        repeat split; auto; try lia.
        -- destruct (Hok H) as [Hcat _]. rewrite Hcat. subst chunk.
           rewrite <- (drop_drop sent increment) by lia. apply take_drop.
        -- destruct (Hok H) as [_ Hcount].
           rewrite Zpos_P_of_succ_nat, Hcount.
           assert (Hfull : increment = 1024) by lia.
           rewrite HC, Hfull in *.
           replace (size data - sent + 1024 - 1)
             with (size data - (sent + 1024) + 1024 - 1 + 1 * 1024) by lia.
           rewrite Z.div_add by lia.
           assert (1 <= (size data - (sent + 1024) + 1024 - 1) / 1024)
             by (apply Z.div_le_lower_bound; lia).
           lia.
    + (* the send fails after part of the chunk *)
      change (is_error (Z.pos e)) with true. simpl orb. cbv iota.
      assert (Hne : chunk <> []).
      { intros Hnil. rewrite Hnil, size_nil in Hunsent. lia. }
      destruct (prefix_of_removelast k chunk Hne) as [Hpre Hlt].
      pose proof (size_nonneg (firstn k (removelast chunk))).
      set (m := size (firstn k (removelast chunk))) in *.
      eexists [_], [_]. split; [reflexivity|]. split; [reflexivity|]. simpl.
      repeat split; auto; try lia;
        try match goal with H : Z.pos _ = success |- _ => discriminate H end.
      etransitivity; [exact Hpre|].
      rewrite <- Hscratch. unfold take. rewrite firstn_firstn. f_equal. lia.
Qed.

End TcpWrite.

Section WriteClaims.
Import Asio.

Lemma sends_chained_bounded data steps :
  forall sent chunks,
    sends_chained data sent steps chunks ->
    Forall (fun ch => size ch <= TcpConnection.BUFFER_LENGTH) chunks.
Proof.
  induction steps as [| st steps IH]; intros sent [| ch chunks] Hchain;
    simpl in Hchain; try contradiction; constructor.
  - destruct Hchain as (_ & Hinc & _ & Hbt & Hch & _). subst ch.
    rewrite size_take by lia. lia.
  - destruct Hchain as (_ & _ & _ & _ & _ & Hchain). eauto.
Qed.

Lemma write_facts (c : TcpConnection.tcp_connection) (p : peer) (w : wire)
      (data : list byte) :
  TcpConnection.arrays_ok c ->
  size data < SIZE_T_MODULUS ->
  match TcpConnection.write c p w data with
  | Fired r =>
      exists chunks,
        TcpConnection.w_wire r = w ++ chunks
        /\ TcpConnection.outgoing_data_ (TcpConnection.w_conn r) = data
        /\ sends_chained data 0 (TcpConnection.w_steps r) chunks
        /\ Forall (fun ch => size ch <= TcpConnection.BUFFER_LENGTH) chunks
        /\ (TcpConnection.w_error r = success ->
            concat chunks = data
            /\ Z.of_nat (length chunks)
               = Z.max 1 ((size data + TcpConnection.BUFFER_LENGTH - 1)
                          / TcpConnection.BUFFER_LENGTH))
        /\ (TcpConnection.w_error r <> success ->
            Z.of_nat (accepts p) * TcpConnection.BUFFER_LENGTH < size data)
  | Pending => Z.of_nat (accepts p) * TcpConnection.BUFFER_LENGTH < size data
  | Undefined => False
  | OutOfFuel => False
  end.
Proof.
  intros [_ Hwb] Hmax.
  pose proof (size_nonneg data) as Hnn.
  pose proof (write_chunked_spec (S (Z.to_nat (size data)))
                (TcpConnection.set_outgoing_data c data) p w 0 []) as Hspec.
  simpl TcpConnection.outgoing_data_ in Hspec. simpl TcpConnection.write_buffer_ in Hspec.
  specialize (Hspec Hwb ltac:(lia) Hmax ltac:(lia)).
  unfold TcpConnection.write.
  destruct (TcpConnection.write_chunked _ _ p w 0 []) as [r | | |];
    try contradiction; [|lia].
  destruct Hspec as (steps & chunks & Hsteps & Hwire & Hdata & _ & Hchain & Hok & Hbad).
  simpl in Hsteps. subst steps.
  exists chunks. repeat split; auto.
  - eapply sends_chained_bounded; eauto.
  - destruct (Hok H) as [Hcat _]. now rewrite Hcat, drop_nonpos by lia.
  - destruct (Hok H) as [_ Hcount]. rewrite Hcount. do 2 f_equal. lia.
  - intros Hne. specialize (Hbad Hne). lia.
Qed.

(** C3. [write(buffer)] on a stream connection never leaves its buffers
    and never runs out of chunks.  When it completes, the wire got one chunk
    per physical send; each send took [min(unsent, 1024)] bytes of the unsent
    suffix, copied into the scratch buffer before the send, and the counter
    went on by the bytes transferred; no chunk is longer than 1024 bytes.
    When it completes without error the chunks concatenated are the buffer
    ([max(1, ceil(size / 1024))] of them), and it does complete without error
    when the peer takes that many sends. *)
Theorem write_sends_entire_buffer (c : TcpConnection.tcp_connection) (p : peer)
        (w : wire) (data : list byte) :
  TcpConnection.arrays_ok c ->
  size data < SIZE_T_MODULUS ->
  TcpConnection.write c p w data <> Undefined
  /\ TcpConnection.write c p w data <> OutOfFuel
  /\ (size data <= Z.of_nat (accepts p) * TcpConnection.BUFFER_LENGTH ->
      exists r, TcpConnection.write c p w data = Fired r
                /\ TcpConnection.w_error r = success)
  /\ (forall r,
        TcpConnection.write c p w data = Fired r ->
        exists chunks,
          TcpConnection.w_wire r = w ++ chunks
          /\ TcpConnection.outgoing_data_ (TcpConnection.w_conn r) = data
          /\ sends_chained data 0 (TcpConnection.w_steps r) chunks
          /\ Forall (fun ch => size ch <= TcpConnection.BUFFER_LENGTH) chunks
          /\ (TcpConnection.w_error r = success ->
              concat chunks = data
              /\ Z.of_nat (length chunks)
                 = Z.max 1 ((size data + TcpConnection.BUFFER_LENGTH - 1)
                            / TcpConnection.BUFFER_LENGTH))).
Proof.
  intros Harr Hmax.
  pose proof (write_facts c p w data Harr Hmax) as Hfacts.
  destruct (TcpConnection.write c p w data) as [r | | |]; try contradiction.
  - destruct Hfacts as (chunks & Hwire & Hdata & Hchain & Hbound & Hok & Hbad).
    repeat split; try discriminate.
    + intros Hpeer. exists r. split; [reflexivity|].
      destruct (Z.eq_dec (TcpConnection.w_error r) success) as [|Hne]; [assumption|].
      specialize (Hbad Hne). lia.
    + intros r' [= <-]. exists chunks. repeat split; auto; now destruct (Hok H).
  - repeat split; try discriminate. intros Hpeer. lia.
Qed.

Lemma write_sends_entire_buffer_witness :
  let data := [x68; x69] in
  TcpConnection.write TcpConnection.fresh [Sent] [] data <> Undefined
  /\ TcpConnection.write TcpConnection.fresh [Sent] [] data <> OutOfFuel
  /\ (size data <= Z.of_nat (accepts [Sent]) * TcpConnection.BUFFER_LENGTH ->
      exists r, TcpConnection.write TcpConnection.fresh [Sent] [] data = Fired r
                /\ TcpConnection.w_error r = success)
  /\ (forall r,
        TcpConnection.write TcpConnection.fresh [Sent] [] data = Fired r ->
        exists chunks,
          TcpConnection.w_wire r = [] ++ chunks
          /\ TcpConnection.outgoing_data_ (TcpConnection.w_conn r) = data
          /\ sends_chained data 0 (TcpConnection.w_steps r) chunks
          /\ Forall (fun ch => size ch <= TcpConnection.BUFFER_LENGTH) chunks
          /\ (TcpConnection.w_error r = success ->
              concat chunks = data
              /\ Z.of_nat (length chunks)
                 = Z.max 1 ((size data + TcpConnection.BUFFER_LENGTH - 1)
                            / TcpConnection.BUFFER_LENGTH))).
Proof.
  apply (write_sends_entire_buffer TcpConnection.fresh [Sent] [] [x68; x69]).
  - split; reflexivity.
  - unfold SIZE_T_MODULUS. reflexivity.
Defined.

Example write_boundary_lengths :
  wire_lengths 0 = Some (0, [0])
  /\ wire_lengths 1 = Some (0, [1])
  /\ wire_lengths 1023 = Some (0, [1023])
  /\ wire_lengths 1024 = Some (0, [1024])
  /\ wire_lengths 1025 = Some (0, [1024; 1])
  /\ wire_lengths 10240 = Some (0, repeat 1024 10).
Proof. repeat split; vm_compute; reflexivity. Qed.

Lemma udp_write_chunked_simulates fuel :
  forall c p w sent log,
    UdpConnection.write_chunked fuel (as_udp c) p w sent (map as_udp_step log)
    = map_outcome as_udp_done (TcpConnection.write_chunked fuel c p w sent log).
Proof.
  induction fuel as [| fuel IH]; intros c p w sent log; [reflexivity|].
  simpl. change UdpConnection.BUFFER_LENGTH with TcpConnection.BUFFER_LENGTH.
  destruct (memcpy _ 0 _ sent _) as [scratch |]; [|reflexivity].
  cbn [bind defined].
  destruct (async_write _ p w) as [[[[error bytes_transferred] p'] w'] | | |];
    try reflexivity.
  cbn [bind].
  destruct (is_error error || _).
  - simpl. unfold as_udp_done. simpl. now rewrite map_app.
  - rewrite <- IH. simpl. now rewrite map_app.
Qed.

(** C7. [udp_connection::write] is [tcp_connection::write] on the members
    the two classes share: same outcome, same chunks on the wire, same
    steps.  So every datagram it sends has at most 1024 bytes, a payload
    longer than that never leaves as one datagram, and when the write
    completes without error the payload went out as
    [ceil(size / 1024) >= 2] datagrams. *)
Theorem udp_write_is_tcp_write (uc : UdpConnection.udp_connection)
        (tc : TcpConnection.tcp_connection) (p : peer) (w : wire) (data : list byte) :
  as_udp tc = uc ->
  TcpConnection.arrays_ok tc ->
  size data < SIZE_T_MODULUS ->
  UdpConnection.write uc p w data
  = map_outcome as_udp_done (TcpConnection.write tc p w data)
  /\ (forall r,
        UdpConnection.write uc p w data = Fired r ->
        UdpConnection.BUFFER_LENGTH < size data ->
        exists chunks,
          UdpConnection.w_wire r = w ++ chunks
          /\ Forall (fun ch => size ch <= UdpConnection.BUFFER_LENGTH) chunks
          /\ Forall (fun ch => ch <> data) chunks
          /\ (UdpConnection.w_error r = success ->
              concat chunks = data
              /\ (2 <= length chunks)%nat
              /\ Z.of_nat (length chunks)
                 = (size data + UdpConnection.BUFFER_LENGTH - 1)
                   / UdpConnection.BUFFER_LENGTH)).
Proof.
  intros <- Harr Hmax.
  assert (Hsame : UdpConnection.write (as_udp tc) p w data
                  = map_outcome as_udp_done (TcpConnection.write tc p w data)).
  { unfold UdpConnection.write, TcpConnection.write.
    apply (udp_write_chunked_simulates _ (TcpConnection.set_outgoing_data tc data) p w 0 []). }
  split; [exact Hsame|].
  intros r Hr Hlong. rewrite Hsame in Hr.
  pose proof (write_facts tc p w data Harr Hmax) as Hfacts.
  destruct (TcpConnection.write tc p w data) as [r' | | |] eqn:Htcp; try discriminate.
  injection Hr as <-.
  destruct Hfacts as (chunks & Hwire & _ & _ & Hbound & Hok & _).
  exists chunks. simpl. repeat split; auto.
  - eapply Forall_impl; [|exact Hbound]. intros ch Hch ->.
    change UdpConnection.BUFFER_LENGTH with TcpConnection.BUFFER_LENGTH in Hlong. lia.
  - now destruct (Hok H).
  - destruct (Hok H) as [_ Hcount].
    assert (2 <= (size data + TcpConnection.BUFFER_LENGTH - 1) / TcpConnection.BUFFER_LENGTH).
    { apply Z.div_le_lower_bound; [reflexivity|].
      change UdpConnection.BUFFER_LENGTH with 1024 in Hlong.
      change TcpConnection.BUFFER_LENGTH with 1024. lia. }
    lia.
  - destruct (Hok H) as [_ Hcount].
    assert (2 <= (size data + TcpConnection.BUFFER_LENGTH - 1) / TcpConnection.BUFFER_LENGTH).
    { apply Z.div_le_lower_bound; [reflexivity|].
      change UdpConnection.BUFFER_LENGTH with 1024 in Hlong.
      change TcpConnection.BUFFER_LENGTH with 1024. lia. }
    change UdpConnection.BUFFER_LENGTH with TcpConnection.BUFFER_LENGTH. lia.
Qed.

Lemma udp_write_is_tcp_write_witness :
  let tc := TcpConnection.fresh in
  let uc := as_udp tc in
  let data := [x68; x69] in
  UdpConnection.write uc [Sent] [] data
  = map_outcome as_udp_done (TcpConnection.write tc [Sent] [] data)
  /\ (forall r,
        UdpConnection.write uc [Sent] [] data = Fired r ->
        UdpConnection.BUFFER_LENGTH < size data ->
        exists chunks,
          UdpConnection.w_wire r = [] ++ chunks
          /\ Forall (fun ch => size ch <= UdpConnection.BUFFER_LENGTH) chunks
          /\ Forall (fun ch => ch <> data) chunks
          /\ (UdpConnection.w_error r = success ->
              concat chunks = data
              /\ (2 <= length chunks)%nat
              /\ Z.of_nat (length chunks)
                 = (size data + UdpConnection.BUFFER_LENGTH - 1)
                   / UdpConnection.BUFFER_LENGTH)).
Proof.
  apply (udp_write_is_tcp_write (as_udp TcpConnection.fresh) TcpConnection.fresh
           [Sent] [] [x68; x69]).
  - reflexivity.
  - split; reflexivity.
  - unfold SIZE_T_MODULUS. reflexivity.
Defined.

(** A payload of 1025 bytes leaves a datagram connection as two datagrams,
    of 1024 bytes and of one. *)
Example udp_write_splits_1025 :
  match UdpConnection.write (as_udp TcpConnection.fresh) [Sent; Sent] []
                            (repeat x2a (Z.to_nat 1025)) with
  | Fired r => (UdpConnection.w_error r, map size (UdpConnection.w_wire r))
               = (0, [1024; 1])
  | _ => False
  end.
Proof. vm_compute. reflexivity. Qed.

End WriteClaims.

(** ** The datagram connection: reads; the listener *)

Section UdpRead.
Import UdpConnection.

Lemma resize_same (v : list byte) : resize (size v) v = v.
Proof.
  unfold resize. rewrite take_all, Z.sub_diag by lia. simpl. apply app_nil_r.
Qed.

(** A datagram whose receive works out is handed over whole, alone, and
    with its sender. *)
Lemma udp_read_one_datagram from payload s :
  read (Datagram from payload None :: s)
  = Fired {| r_error := success; r_endpoint := from; r_buffer := payload;
             r_socket := s |}.
Proof.
  unfold read. simpl.
  assert (Hroom : size (repeat x00 (Z.to_nat (size payload))) = size payload).
  { rewrite size_repeat. pose proof (size_nonneg payload). lia. }
  rewrite Hroom, take_all by lia.
  rewrite skipn_all2 by (rewrite repeat_length; unfold size; lia).
  rewrite app_nil_r. now rewrite resize_same.
Qed.

(** A failed probe gives the error and empty results. *)
Lemma udp_read_probe_failure e s :
  read (ProbeFailure e :: s)
  = Fired {| r_error := Zpos e; r_endpoint := default_endpoint; r_buffer := [];
             r_socket := s |}.
Proof. reflexivity. Qed.

(** A failed receive gives the error, the default endpoint, and the buffer
    as it was allocated for the probed length. *)
Lemma udp_read_receive_failure from payload e s :
  read (Datagram from payload (Some e) :: s)
  = Fired {| r_error := Zpos e; r_endpoint := default_endpoint;
             r_buffer := repeat x00 (Z.to_nat (size payload));
             r_socket := s |}.
Proof. reflexivity. Qed.

(** C6 at the failing input: the receive of a probed three-byte datagram
    fails, and the callback gets the error with a buffer of three bytes,
    where the specification promises an empty one. *)
Theorem udp_read_failed_receive_buffer :
  exists r,
    read [Datagram (167772161, 5000) [x61; x62; x63] (Some 111%positive)] = Fired r
    /\ r_error r = 111
    /\ r_endpoint r = default_endpoint
    /\ r_buffer r = [x00; x00; x00]
    /\ r_buffer r <> [].
Proof.
  eexists. split; [reflexivity|]. simpl. repeat split. discriminate.
Qed.

End UdpRead.

Section Listener.
Import TcpListener.

Lemma step_silent l w : silent l -> step l w = None.
Proof.
  intros [Hout Hq].
  destruct w; simpl; unfold complete_accept, run_posted;
    rewrite ?Hout, ?Hq; destruct (working l); reflexivity.
Qed.

Lemma run_silent ws :
  forall l, silent l -> run l ws = l.
Proof.
  induction ws as [| w ws IH]; intros l Hs; [reflexivity|].
  simpl. rewrite step_silent by assumption. now apply IH.
Qed.

(** One successful accept of a started listener, in its two halves: the
    handler runs with no accept armed, and the next accept is armed when it
    has returned. *)
Lemma accepted_step h l peer :
  accepting h l ->
  exists l',
    call_handler (disarm l) success (Some peer) = Returns tt l'
    /\ outstanding l' = 0%nat
    /\ acceptor_open l' = true
    /\ working l' = true
    /\ notified l' = notified l ++ welcomes h [peer]
    /\ complete_accept l (Accepted peer) = Some (Returns tt (async_accept l'))
    /\ accepting h (async_accept l')
    /\ posted (async_accept l') = posted l
    /\ notified (async_accept l') = notified l ++ welcomes h [peer].
Proof.
  intros (Hh & Hout & Hopen & Hwork).
  unfold complete_accept, accept_handler, call_handler, disarm.
  rewrite Hwork, Hout. cbn [connection_handler_ set_acceptor]. rewrite Hh.
  eexists. split; [reflexivity|].
  unfold async_accept, accepting, working in *. simpl. rewrite Hopen. simpl.
  repeat split; auto.
Qed.

Lemma failed_step h l e :
  accepting h l ->
  posted l = [] ->
  exists l',
    complete_accept l (AcceptFailed e) = Some (Returns tt l')
    /\ silent l'
    /\ notified l' = notified l ++ [refusal h e].
Proof.
  intros (Hh & Hout & Hopen & Hwork) Hq.
  unfold complete_accept, accept_handler, call_handler, disarm.
  rewrite Hwork, Hout. cbn [connection_handler_ set_acceptor]. rewrite Hh.
  eexists. split; [reflexivity|]. unfold silent. simpl. auto.
Qed.

Lemma all_accepted_tail w ws : all_accepted (w :: ws) -> all_accepted ws.
Proof. intros Hall e Hin. apply (Hall e). now right. Qed.

Lemma run_accepted ws :
  forall h l,
    accepting h l ->
    posted l = [] ->
    all_accepted ws ->
    accepting h (run l ws)
    /\ posted (run l ws) = []
    /\ notified (run l ws) = notified l ++ welcomes h (peers_of ws).
Proof.
  induction ws as [| w ws IH]; intros h l Hacc Hq Hall.
  - simpl. rewrite app_nil_r. auto.
  - pose proof (all_accepted_tail _ _ Hall) as Hall'.
    destruct w as [[peer | e] |].
    + destruct (accepted_step h l peer Hacc)
        as (l' & _ & _ & _ & _ & _ & Hstep & Hacc' & Hq' & Hlog').
      simpl. rewrite Hstep.
      destruct (IH h (async_accept l') Hacc') as (Hacc'' & Hq'' & Hlog'');
        [congruence | assumption |].
      split; [assumption|]. split; [assumption|].
      rewrite Hlog'', Hlog'. simpl. now rewrite <- app_assoc.
    + exfalso. apply (Hall e). now left.
    + simpl. unfold run_posted. rewrite Hq.
      destruct (working l); apply IH; assumption.
Qed.

Lemma run_failed ws :
  forall h l e rest,
    accepting h l ->
    posted l = [] ->
    all_accepted ws ->
    silent (run l (ws ++ Completes (AcceptFailed e) :: rest))
    /\ notified (run l (ws ++ Completes (AcceptFailed e) :: rest))
       = notified l ++ welcomes h (peers_of ws) ++ [refusal h e].
Proof.
  induction ws as [| w ws IH]; intros h l e rest Hacc Hq Hall.
  - destruct (failed_step h l e Hacc Hq) as (l' & Hstep & Hsilent & Hlog).
    simpl. rewrite Hstep. rewrite run_silent by assumption. auto.
  - pose proof (all_accepted_tail _ _ Hall) as Hall'.
    destruct w as [[peer | e'] |].
    + destruct (accepted_step h l peer Hacc)
        as (l' & _ & _ & _ & _ & _ & Hstep & Hacc' & Hq' & Hlog').
      simpl. rewrite Hstep.
      destruct (IH h (async_accept l') e rest Hacc') as (Hsilent & Hlog'');
        [congruence | assumption |].
      split; [assumption|].
      rewrite Hlog'', Hlog'. simpl. now rewrite <- app_assoc.
    + exfalso. apply (Hall e'). now left.
    + simpl. unfold run_posted. rewrite Hq.
      destruct (working l); apply IH; assumption.
Qed.

Lemma spawn_all_running ts0 :
  forall ts, spawn_all ts0 = Some ts ->
             Forall (eq running) ts /\ length ts = length ts0.
Proof.
  induction ts0 as [| [|] ts0 IH]; simpl; intros ts Hspawn.
  - injection Hspawn as <-. split; [constructor | reflexivity].
  - destruct (spawn_all ts0) as [ts' |]; [|discriminate]. injection Hspawn as <-.
    destruct (IH ts' eq_refl) as [Hrun Hlen].
    split; [constructor; auto | simpl; congruence].
  - discriminate.
Qed.

Lemma running_pool_works l :
  ioservice_stopped l = false ->
  Forall (eq running) (threads_ l) ->
  threads_ l <> [] ->
  working l = true.
Proof.
  unfold working. intros -> Hrun Hsome.
  destruct (threads_ l) as [| t ts]; [congruence|].
  inversion Hrun as [| ? ? <- _]. reflexivity.
Qed.

(** What a [start] that returned leaves. *)
Lemma start_returned l0 h bindable l :
  start l0 h bindable = Returns tt l ->
  connection_handler_ l = Some h /\ outstanding l = 1%nat
  /\ acceptor_open l = true /\ ioservice_stopped l = false
  /\ notified l = notified l0 /\ posted l = posted l0
  /\ Forall (eq running) (threads_ l)
  /\ length (threads_ l) = length (threads_ l0).
Proof.
  unfold start. simpl.
  destruct (spawn_all (threads_ l0)) as [ts |] eqn:Hspawn; [|discriminate].
  simpl. destruct (acceptor_open l0); [discriminate|].
  destruct bindable; [|discriminate]. simpl.
  intros [= <-]. simpl.
  destruct (spawn_all_running _ _ Hspawn) as [Hrun Hlen].
  repeat split; assumption.
Qed.

Lemma spawn_all_fresh (n : nat) :
  spawn_all (repeat not_a_thread n) = Some (repeat running n).
Proof. induction n as [| n IH]; simpl; [|rewrite IH]; reflexivity. Qed.

(** A listener whose threads are joined and whose acceptor is closed can be
    started. *)
Lemma start_joined l h n :
  threads_ l = repeat not_a_thread n ->
  acceptor_open l = false ->
  exists l', start l h true = Returns tt l' /\ threads_ l' = repeat running n.
Proof.
  intros Hts Hclosed. unfold start. cbn [threads_ set_stopped set_handler].
  rewrite Hts, spawn_all_fresh. cbn [acceptor_open set_threads_ set_stopped set_handler].
  rewrite Hclosed. simpl. eexists. split; reflexivity.
Qed.

Lemma start_accepting l0 h bindable l :
  start l0 h bindable = Returns tt l ->
  threads_ l0 <> [] ->
  accepting h l.
Proof.
  intros Hstart Hsome.
  destruct (start_returned _ _ _ _ Hstart)
    as (Hh & Hout & Hopen & Hstopped & _ & _ & Hrun & Hlen).
  repeat split; try assumption.
  apply running_pool_works; try assumption.
  intros Hnil. rewrite Hnil in Hlen. destruct (threads_ l0); [congruence | discriminate].
Qed.




Lemma join_all_joined ts :
  Forall (eq running) ts ->
  join_all ts = (repeat not_a_thread (length ts), true).
Proof.
  induction 1 as [| t ts <- _ IH]; [reflexivity|].
  simpl. now rewrite IH.
Qed.

(** With no worker inside [run()] nothing that is queued is run. *)
Lemma drain_posted_idle picked l :
  working l = false -> drain_posted picked l = Returns tt l.
Proof.
  intros Hidle. destruct picked; simpl; [reflexivity|].
  unfold run_posted. now rewrite Hidle.
Qed.

(** The workers run the oldest queued completions on the handler that is
    set, and touch nothing but the queue and the calls of the handler. *)
Lemma drain_posted_handled picked :
  forall l h,
    connection_handler_ l = Some h ->
    exists l',
      drain_posted picked l = Returns tt l'
      /\ connection_handler_ l' = Some h
      /\ threads_ l' = threads_ l
      /\ ioservice_stopped l' = ioservice_stopped l
      /\ acceptor_open l' = acceptor_open l
      /\ outstanding l' = outstanding l
      /\ posted l' = skipn (if working l then picked else 0%nat) (posted l)
      /\ notified l'
         = notified l
             ++ map (refusal h) (firstn (if working l then picked else 0%nat) (posted l)).
Proof.
  induction picked as [| picked IH]; intros l h Hh.
  - exists l. simpl. destruct (working l); simpl; rewrite app_nil_r; repeat split; auto.
  - simpl. unfold run_posted.
    destruct (working l) eqn:Hwork.
    + destruct (posted l) as [| e queue] eqn:Hq.
      * exists l. simpl. rewrite app_nil_r. repeat split; auto.
      * unfold accept_handler, call_handler. cbn [connection_handler_ set_acceptor].
        rewrite Hh.
        match goal with
        | |- context [drain_posted picked ?l1] =>
            destruct (IH l1 h Hh)
              as (l' & Hdrain & Hh' & Hts & Hst & Hop & Hout & Hq' & Hlog)
        end.
        exists l'. split; [exact Hdrain|].
        assert (Hwork' : working
                  (add_notification (set_acceptor l (acceptor_open l) (outstanding l) queue)
                     {| n_handler := h; n_error := Z.pos e; n_connection := None |})
                = true) by exact Hwork.
        rewrite Hwork' in Hq', Hlog. simpl in *.
        repeat split; try assumption.
        rewrite Hlog, <- app_assoc. reflexivity.
    + exists l. simpl. rewrite app_nil_r. repeat split; auto.
Qed.

(** A [stop()] of a started listener goes through and leaves no thread
    joinable. *)
Lemma stop_started l0 h bindable l picked :
  start l0 h bindable = Returns tt l ->
  exists l',
    stop l picked = Returns tt l'
    /\ threads_ l' = repeat not_a_thread (length (threads_ l))
    /\ acceptor_open l' = false /\ ioservice_stopped l' = true
    /\ outstanding l' = 0%nat /\ connection_handler_ l' = None
    /\ posted l'
       = skipn (if working l then picked else 0%nat) (posted l ++ [operation_aborted])
    /\ notified l'
       = notified l
           ++ map (refusal h)
                  (firstn (if working l then picked else 0%nat)
                          (posted l ++ [operation_aborted])).
Proof.
  intros Hstart.
  destruct (start_returned _ _ _ _ Hstart)
    as (Hh & Hout & _ & _ & _ & _ & Hrun & _).
  unfold stop.
  destruct (drain_posted_handled picked (close l) h Hh)
    as (l' & Hdrain & Hh' & Hts & Hst & Hop & Hout' & Hq & Hlog).
  rewrite Hdrain. cbn [threads_ set_stopped]. rewrite Hts. cbn [close threads_ set_acceptor].
  rewrite (join_all_joined _ Hrun).
  eexists. split; [reflexivity|]. simpl.
  unfold close in Hq, Hlog, Hop, Hout'. simpl in Hq, Hlog, Hop, Hout'.
  rewrite Hout in Hq, Hlog. simpl in Hq, Hlog.
  repeat split; assumption.
Qed.

(** A [stop()] of a listener whose workers are not running and that has a
    thread object which is not joinable throws from [join], and the handler
    stays as it was. *)
Lemma stop_not_joinable l ts picked :
  working l = false ->
  threads_ l = not_a_thread :: ts ->
  exists l',
    stop l picked = Throws (system_error "Invalid argument") l'
    /\ connection_handler_ l' = connection_handler_ l.
Proof.
  intros Hidle Hts. unfold stop.
  rewrite drain_posted_idle by exact Hidle.
  cbn [threads_ set_stopped close set_acceptor]. rewrite Hts. simpl.
  eexists. split; reflexivity.
Qed.

(** After a [stop()] that returned, the next [stop()] of the same listener
    throws, as long as it has a worker thread at all. *)
Lemma stop_again l0 h bindable l picked picked' :
  start l0 h bindable = Returns tt l ->
  threads_ l <> [] ->
  exists l' l'',
    stop l picked = Returns tt l'
    /\ stop l' picked' = Throws (system_error "Invalid argument") l''.
Proof.
  intros Hstart Hthreads.
  destruct (stop_started _ _ _ _ picked Hstart) as (l' & Hstop & Hts & _ & Hst & _).
  destruct (threads_ l) as [| t ts]; [congruence|]. simpl in Hts.
  assert (Hidle : working l' = false) by (unfold working; now rewrite Hst).
  destruct (stop_not_joinable l' _ picked' Hidle Hts) as (l'' & Hthrow & _).
  now exists l', l''.
Qed.

(** C5 at the failing input: [start(h); stop(); stop()], whatever the
    workers still run during the two calls.  The first [stop()] returns; the
    second one throws [std::system_error] out of [std::thread::join], and run
    from the destructor it ends in [std::terminate].  So does the destructor
    of a listener that was never started. *)
Theorem second_stop_throws (picked picked' : nat) :
  exists l1 l2 l3,
    start (make 8080 "") 7 true = Returns tt l1
    /\ stop l1 picked = Returns tt l2
    /\ stop l2 picked' = Throws (system_error "Invalid argument") l3
    /\ destroy l2 picked' = Terminates
    /\ destroy (make 8080 "") picked' = Terminates.
Proof.
  destruct (start_joined (make 8080 "") 7 THREADS eq_refl eq_refl)
    as (l1 & Hstart & Hts).
  destruct (stop_again _ _ _ _ picked picked' Hstart) as (l2 & l3 & Hstop & Hthrow);
    [rewrite Hts; discriminate|].
  exists l1, l2, l3. split; [exact Hstart|]. split; [exact Hstop|].
  split; [exact Hthrow|]. split.
  - unfold destroy. now rewrite Hthrow.
  - unfold destroy.
    destruct (stop_not_joinable (make 8080 "") [not_a_thread] picked')
      as (l' & Hthrow' & _); [reflexivity | reflexivity |].
    now rewrite Hthrow'.
Qed.

End Listener.

(** ** The synchronizer and the queue *)

Section SynchronizerClaims.
Import Synchronizer.

Lemma wait_loop_ends wakeups :
  forall s,
    match wait_loop s wakeups with
    | Returns _ s' => _condition_met s' = true
    | Blocks s' => _condition_met s' = false
    | Throws _ _ => False
    | Terminates => False
    end.
Proof.
  induction wakeups as [| flag wakeups IH]; intros [[|]]; simpl; auto.
  apply IH.
Qed.

Lemma timed_wait_loop_ends wakeups :
  forall s deadline now,
    match timed_wait_loop s deadline now wakeups with
    | Returns met s' => met = _condition_met s'
    | Blocks s' => _condition_met s' = false
    | Throws _ _ => False
    | Terminates => False
    end.
Proof.
  induction wakeups as [| [flag now'] wakeups IH]; intros [[|]] deadline now; simpl; auto.
  - destruct (now <? deadline); auto.
  - destruct (now <? deadline); simpl; auto. apply IH.
Qed.

Lemma wait_loop_waited wakeups :
  forall s, wait_loop s wakeups = waited s wakeups.
Proof.
  induction wakeups as [| flag wakeups IH]; intros [[|]]; try reflexivity.
  simpl wait_loop. rewrite IH. reflexivity.
Qed.

Lemma timed_wait_loop_waited wakeups :
  forall s deadline now,
    timed_wait_loop s deadline now wakeups = timed_waited s deadline now wakeups.
Proof.
  induction wakeups as [| [flag now'] wakeups IH]; intros [met] deadline now;
    unfold timed_waited; simpl; rewrite Z.ltb_antisym;
    destruct met, (deadline <=? now); simpl; try reflexivity.
  rewrite IH. reflexivity.
Qed.

(** C8. With a lock that does not own the mutex, [is_condition_met],
    [set], [reset], [wait] and the two timed waits throw
    [std::runtime_error("Invalid lock")], an exception and not an error code
    of a callback, and leave the flag as it was.  With a lock that owns it
    none of them throws: [is_condition_met] returns the flag, [set] raises
    it, [reset] lowers it; [wait] returns when the flag is up at the call or
    at a wake-up and blocks otherwise; the timed waits return the flag at the
    first look that finds it up or the deadline reached, which for a timeout
    is the clock at the call plus the timeout. *)
Theorem lock_overloads_check_the_lock (s : synchronizer) (lock : scoped_lock)
        (wakeups : list bool) (deadline timeout now : Z)
        (timed_wakeups : list (bool * Z)) :
  (owns_lock lock = false ->
   is_condition_met s lock = Throws invalid_lock s
   /\ set s lock = Throws invalid_lock s
   /\ reset s lock = Throws invalid_lock s
   /\ wait s lock wakeups = Throws invalid_lock s
   /\ wait_until s lock deadline now timed_wakeups = Throws invalid_lock s
   /\ wait_for s lock timeout now timed_wakeups = Throws invalid_lock s)
  /\ (owns_lock lock = true ->
      is_condition_met s lock = Returns (_condition_met s) s
      /\ set s lock = Returns tt {| _condition_met := true |}
      /\ reset s lock = Returns tt {| _condition_met := false |}
      /\ wait s lock wakeups = waited s wakeups
      /\ wait_until s lock deadline now timed_wakeups
         = timed_waited s deadline now timed_wakeups
      /\ wait_for s lock timeout now timed_wakeups
         = timed_waited s (now + timeout) now timed_wakeups).
Proof.
  split; intros Hlock.
  - unfold is_condition_met, set, reset, wait, wait_for, wait_until.
    rewrite Hlock. repeat split; reflexivity.
  - unfold is_condition_met, set, reset, wait, wait_for, wait_until.
    rewrite Hlock. cbn [Bool.eqb].
    rewrite wait_loop_waited, !timed_wait_loop_waited.
    repeat split; reflexivity.
Qed.

Lemma lock_overloads_check_the_lock_witness :
  (let s := {| _condition_met := true |} in
   let lock := {| owns_lock := false |} in
   is_condition_met s lock = Throws invalid_lock s
   /\ set s lock = Throws invalid_lock s
   /\ reset s lock = Throws invalid_lock s
   /\ wait s lock [true] = Throws invalid_lock s
   /\ wait_until s lock 10 0 [(true, 5)] = Throws invalid_lock s
   /\ wait_for s lock 10 0 [(true, 5)] = Throws invalid_lock s)
  /\ (let s := {| _condition_met := false |} in
      let lock := {| owns_lock := true |} in
      is_condition_met s lock = Returns false s
      /\ set s lock = Returns tt {| _condition_met := true |}
      /\ reset s lock = Returns tt {| _condition_met := false |}
      /\ wait s lock [false; true] = Returns tt {| _condition_met := true |}
      /\ wait_until s lock 10 0 [(false, 5); (false, 12)]
         = Returns false {| _condition_met := false |}
      /\ wait_for s lock 10 0 [(false, 5); (true, 7)]
         = Returns true {| _condition_met := true |}).
Proof.
  split.
  - apply (lock_overloads_check_the_lock {| _condition_met := true |}
             {| owns_lock := false |} [true] 10 10 0 [(true, 5)]).
    reflexivity.
  - split; [reflexivity|]. split; [reflexivity|]. split; [reflexivity|].
    split.
    + apply (lock_overloads_check_the_lock {| _condition_met := false |}
               {| owns_lock := true |} [false; true] 10 10 0 [(false, 5); (false, 12)]).
      reflexivity.
    + split.
      * apply (lock_overloads_check_the_lock {| _condition_met := false |}
                 {| owns_lock := true |} [] 10 10 0 [(false, 5); (false, 12)]).
        reflexivity.
      * apply (lock_overloads_check_the_lock {| _condition_met := false |}
                 {| owns_lock := true |} [] 10 10 0 [(false, 5); (true, 7)]).
        reflexivity.
Defined.

End SynchronizerClaims.

Section QueueClaims.
Import ConcurrentQueue.
Context {A : Type}.
Implicit Types (q : concurrent_queue A) (wakes : list (wake A)).

Lemma pushes_cons q x pushed : pushes q (x :: pushed) = pushes (push q x) pushed.
Proof. reflexivity. Qed.

Lemma pushes_container pushed :
  forall q, _container (pushes q pushed) = _container q ++ pushed.
Proof.
  induction pushed as [| x pushed IH]; intros q.
  - simpl. now rewrite app_nil_r.
  - rewrite pushes_cons, IH. simpl. now rewrite <- app_assoc.
Qed.

Lemma pushes_size pushed :
  forall q, _size (pushes q pushed) = _size q + Z.of_nat (length pushed).
Proof.
  induction pushed as [| x pushed IH]; intros q.
  - simpl. lia.
  - rewrite pushes_cons, IH. simpl length. simpl _size. lia.
Qed.

Lemma timed_wait_loop_spec wakes :
  forall q,
    timed_wait_loop q wakes
    = match _container q with
      | _ :: _ => Returns (Some tt) q
      | [] =>
          match first_news wakes with
          | None => Blocks q
          | Some TimedOut => Returns None q
          | Some (Notified pushed) => Returns (Some tt) (pushes q pushed)
          end
      end.
Proof.
  induction wakes as [| [[| x pushed] |] wakes IH]; intros q.
  - simpl. now destruct (_container q).
  - simpl. rewrite IH. now destruct (_container q).
  - simpl first_news. simpl timed_wait_loop.
    destruct (_container q) eqn:Hq; [|reflexivity].
    pose proof (pushes_container (x :: pushed) q) as Hc. rewrite Hq in Hc.
    simpl in Hc. destruct wakes; simpl; now rewrite Hc.
  - simpl. now destruct (_container q).
Qed.

Lemma do_pop_front q front rest :
  _container q = front :: rest ->
  do_pop q = Some (front, {| _size := _size q - 1; _container := rest |}).
Proof. intros Hq. unfold do_pop. now rewrite Hq. Qed.


End QueueClaims.

Section QueueExamples.
Import ConcurrentQueue.


(** Without [clear], the counter follows the container. *)
Lemma push_counted {A : Type} (q : concurrent_queue A) (x : A) :
  counted q -> counted (push q x).
Proof.
  unfold counted, push, do_push. simpl. intros ->. rewrite length_app.
  simpl. lia.
Qed.

Lemma do_pop_counted {A : Type} (q q' : concurrent_queue A) (x : A) :
  counted q -> do_pop q = Some (x, q') -> counted q'.
Proof.
  unfold counted, do_pop. destruct (_container q) as [| front rest]; [discriminate|].
  intros Hq [= _ <-]. simpl. rewrite Hq. simpl length. lia.
Qed.

(** [clear] empties the container and keeps the counter. *)
Lemma clear_keeps_size {A : Type} (q : concurrent_queue A) :
  _container (clear q) = [] /\ _size (clear q) = _size q.
Proof. split; reflexivity. Qed.

(** C10 at the failing input: [push(7); clear()].  The container is empty,
    [size()] is 1 and [empty()] is [false]. *)
Theorem clear_leaves_the_counter :
  let q := clear (push (@make Z) 7) in
  _container q = [] /\ size q = 1 /\ empty q = false.
Proof. repeat split. Qed.

End QueueExamples.

(** ** More on the stream connection *)

Section TcpMore.
Import Asio TcpConnection.

Lemma read_succeeds (c : tcp_connection) (s : stream_socket) (n : Z) :
  0 <= n < SIZE_T_MODULUS ->
  size (read_buffer_ c) = BUFFER_LENGTH ->
  n <= size (stream_bytes s) ->
  exists r,
    read c s n = Fired r
    /\ r_error r = success
    /\ r_buffer r = take n (stream_bytes s)
    /\ stream_bytes (r_socket r) = drop n (stream_bytes s)
    /\ first_failure (r_socket r) = first_failure s
    /\ size (read_buffer_ (r_conn r)) = BUFFER_LENGTH
    /\ incoming_data_ (r_conn r) = [].
Proof.
  intros Hn Hrd Havail.
  unfold read, read_into.
  set (incoming := resize n (incoming_data_ c)).
  assert (Hin : size incoming = n) by (apply size_resize; lia).
  destruct (read_chunked_succeeds (S (Z.to_nat n)) (set_incoming_data c incoming) s n
              incoming 0 [])
    as (r & new & Hr & Herr & Hbuf & Hsock & Hff & _ & _ & _ & _ & Harr);
    try lia; try assumption.
  rewrite Hr. cbn [bind].
  eexists. split; [reflexivity|]. simpl.
  repeat split; auto.
  rewrite Hbuf. unfold splice.
  rewrite (take_nonpos 0), Z.add_0_l, size_take, Z.min_l, (drop_all n incoming) by lia.
  simpl. apply app_nil_r.
Qed.

(** X1.  Two reads in a row take consecutive parts of the stream:
    [read(n)] and then [read(m)] on the same connection hand over the first
    [n] bytes and the next [m] bytes, nothing lost or repeated between them,
    however the segments of the stream fall. *)
Theorem reads_in_a_row (c : tcp_connection) (s : stream_socket) (n m : Z) :
  0 <= n < SIZE_T_MODULUS -> 0 <= m < SIZE_T_MODULUS ->
  size (read_buffer_ c) = BUFFER_LENGTH ->
  n + m <= size (stream_bytes s) ->
  exists r1 r2,
    read c s n = Fired r1
    /\ read (r_conn r1) (r_socket r1) m = Fired r2
    /\ r_error r1 = success /\ r_error r2 = success
    /\ r_buffer r1 = take n (stream_bytes s)
    /\ r_buffer r2 = take m (drop n (stream_bytes s))
    /\ r_buffer r1 ++ r_buffer r2 = take (n + m) (stream_bytes s)
    /\ stream_bytes (r_socket r2) = drop (n + m) (stream_bytes s).
Proof.
  intros Hn Hm Hrd Havail.
  destruct (read_succeeds c s n Hn Hrd ltac:(lia))
    as (r1 & Hr1 & Herr1 & Hbuf1 & Hsock1 & _ & Hrd1 & _).
  destruct (read_succeeds (r_conn r1) (r_socket r1) m Hm Hrd1)
    as (r2 & Hr2 & Herr2 & Hbuf2 & Hsock2 & _).
  { rewrite Hsock1, size_drop by lia. lia. }
  exists r1, r2. rewrite Hbuf1, Hbuf2, Hsock2, Hsock1.
  repeat split; auto.
  - now rewrite take_add by lia.
  - apply drop_drop; lia.
Qed.

Lemma reads_in_a_row_witness :
  let s := [Packet [x01]; Packet [x02; x03; x04]; Failure 104] in
  exists r1 r2,
    read fresh s 2 = Fired r1
    /\ read (r_conn r1) (r_socket r1) 1 = Fired r2
    /\ r_error r1 = success /\ r_error r2 = success
    /\ r_buffer r1 = take 2 (stream_bytes s)
    /\ r_buffer r2 = take 1 (drop 2 (stream_bytes s))
    /\ r_buffer r1 ++ r_buffer r2 = take (2 + 1) (stream_bytes s)
    /\ stream_bytes (r_socket r2) = drop (2 + 1) (stream_bytes s).
Proof.
  apply (reads_in_a_row fresh [Packet [x01]; Packet [x02; x03; x04]; Failure 104] 2 1).
  - unfold SIZE_T_MODULUS. lia.
  - unfold SIZE_T_MODULUS. lia.
  - reflexivity.
  - vm_compute. discriminate.
Defined.

Lemma stream_bytes_of_wire (w : wire) : stream_bytes (socket_of_wire w) = concat w.
Proof.
  induction w as [| ch w IH]; [reflexivity|]. simpl. now rewrite IH.
Qed.

(** X2.  What one end writes the other end reads: when [write(data)]
    completed without error, a [read(size data)] on the socket that receives
    the chunks of the wire hands over [data], byte for byte. *)
Theorem write_then_read (writer reader : tcp_connection) (p : peer)
        (data : list byte) (w : write_done) :
  arrays_ok writer ->
  size (read_buffer_ reader) = BUFFER_LENGTH ->
  size data < SIZE_T_MODULUS ->
  write writer p [] data = Fired w ->
  w_error w = success ->
  exists r,
    read reader (socket_of_wire (w_wire w)) (size data) = Fired r
    /\ r_error r = success
    /\ r_buffer r = data.
Proof.
  intros Harr Hrd Hmax Hw Hok.
  pose proof (write_facts writer p [] data Harr Hmax) as Hfacts.
  rewrite Hw in Hfacts.
  destruct Hfacts as (chunks & Hwire & _ & _ & _ & Hsent & _).
  destruct (Hsent Hok) as [Hcat _]. simpl in Hwire.
  pose proof (size_nonneg data).
  destruct (read_succeeds reader (socket_of_wire (w_wire w)) (size data))
    as (r & Hr & Herr & Hbuf & _); try lia; try assumption.
  { rewrite stream_bytes_of_wire, Hwire, Hcat. lia. }
  exists r. repeat split; auto.
  rewrite Hbuf, stream_bytes_of_wire, Hwire, Hcat. apply take_all. lia.
Qed.

Lemma write_then_read_witness :
  exists w r,
    write fresh [Sent] [] [x68; x69] = Fired w
    /\ read fresh (socket_of_wire (w_wire w)) (size [x68; x69]) = Fired r
    /\ r_error r = success
    /\ r_buffer r = [x68; x69].
Proof.
  eexists. 
  assert (Hw : write fresh [Sent] [] [x68; x69] = Fired _) by (vm_compute; reflexivity).
  destruct (write_then_read fresh fresh [Sent] [x68; x69] _
              (conj eq_refl eq_refl) eq_refl eq_refl Hw eq_refl) as (r & Hr).
  exists r. split; [exact Hw | exact Hr].
Defined.

Lemma sends_chained_prefix steps :
  forall data sent chunks,
    0 <= sent ->
    sends_chained data sent steps chunks ->
    concat chunks = take (size (concat chunks)) (drop sent data).
Proof.
  induction steps as [| st steps IH]; intros data sent [| ch chunks] Hsent Hchain;
    simpl in Hchain; try contradiction.
  - reflexivity.
  - destruct Hchain as (_ & Hinc & Hscratch & Hbt & Hch & Hchain).
    assert (Hpart : ch = take (step_transferred st) (drop sent data)).
    { rewrite Hch.
      transitivity (take (step_transferred st)
                         (take (step_increment st) (step_scratch st))).
      - unfold take. rewrite firstn_firstn. f_equal. lia.
      - rewrite Hscratch. unfold take. rewrite firstn_firstn. f_equal. lia. }
    assert (Hlen : size ch = step_transferred st).
    { rewrite Hpart, size_take, size_drop by lia. lia. }
    specialize (IH data (sent + step_transferred st) chunks ltac:(lia) Hchain).
    simpl concat. rewrite size_app, Hlen.
    rewrite take_add by (try apply size_nonneg; lia).
    rewrite drop_drop by lia. now rewrite <- IH, <- Hpart.
Qed.

(** One send of the chain, with the scratch buffer worked out. *)
Lemma write_chunked_unfold fuel c p w sent log :
  size (write_buffer_ c) = BUFFER_LENGTH ->
  0 <= sent <= size (outgoing_data_ c) ->
  size (outgoing_data_ c) < SIZE_T_MODULUS ->
  let increment := Z.min (size (outgoing_data_ c) - sent) BUFFER_LENGTH in
  let chunk := take increment (drop sent (outgoing_data_ c)) in
  let scratch := chunk ++ drop increment (write_buffer_ c) in
  size chunk = increment
  /\ size scratch = BUFFER_LENGTH
  /\ write_chunked (S fuel) c p w sent log
     = ('(error, bytes_transferred, p', w') <- async_write chunk p w ;;
        let log' := log ++ [{| step_sent := sent; step_scratch := scratch;
                               step_increment := increment;
                               step_transferred := bytes_transferred |}] in
        if is_error error
           || (wrap (sent + bytes_transferred) =? size (outgoing_data_ c))
        then Fired {| w_error := error; w_conn := set_write_buffer c scratch;
                      w_peer := p'; w_wire := w'; w_steps := log' |}
        else write_chunked fuel (set_write_buffer c scratch) p' w'
                           (wrap (sent + bytes_transferred)) log').
Proof.
  intros Harr Hsent Hmax increment chunk scratch.
  assert (HC : BUFFER_LENGTH = 1024) by reflexivity.
  assert (Hchunk : size chunk = increment).
  { subst chunk. rewrite size_take, size_drop by lia. lia. }
  assert (Hscratch : size scratch = BUFFER_LENGTH).
  { subst scratch. rewrite size_app, Hchunk, size_drop by lia. lia. }
  split; [exact Hchunk|]. split; [exact Hscratch|].
  simpl write_chunked. rewrite wrap_small by lia.
  replace (if size (outgoing_data_ c) - sent <? BUFFER_LENGTH
           then size (outgoing_data_ c) - sent else BUFFER_LENGTH) with increment
    by (subst increment;
        destruct (Z.ltb_spec (size (outgoing_data_ c) - sent) BUFFER_LENGTH); lia).
  rewrite memcpy_in_range by lia. cbn [bind defined].
  rewrite (take_nonpos 0), Z.add_0_l by lia. simpl app. fold chunk. fold scratch.
  replace (take increment scratch) with chunk; [reflexivity|].
  subst scratch. rewrite take_app_le by lia. symmetry. apply take_all. lia.
Qed.

(** A write that ends with an error has put less than the unsent part on
    the wire. *)
Lemma write_chunked_error_short fuel :
  forall c p w sent log r,
    size (write_buffer_ c) = BUFFER_LENGTH ->
    0 <= sent <= size (outgoing_data_ c) ->
    size (outgoing_data_ c) < SIZE_T_MODULUS ->
    write_chunked fuel c p w sent log = Fired r ->
    w_error r <> success ->
    exists chunks,
      w_wire r = w ++ chunks
      /\ size (concat chunks) < size (outgoing_data_ c) - sent.
Proof.
  induction fuel as [| fuel IH]; intros c p w sent log r Harr Hsent Hmax Hrun Herr;
    [discriminate|].
  assert (HC : BUFFER_LENGTH = 1024) by reflexivity.
  destruct (write_chunked_unfold fuel c p w sent log Harr Hsent Hmax)
    as (Hchunk & Hscratch & Hstep).
  cbv zeta in Hstep, Hchunk, Hscratch. rewrite Hstep in Hrun. clear Hstep.
  set (increment := Z.min (size (outgoing_data_ c) - sent) BUFFER_LENGTH) in *.
  set (chunk := take increment (drop sent (outgoing_data_ c))) in *.
  unfold async_write in Hrun. rewrite Hchunk in Hrun.
  destruct (Z.eqb_spec increment 0) as [Hzero | Hpos].
  - cbn [bind] in Hrun. change (is_error success) with false in Hrun.
    rewrite Z.add_0_r, wrap_small in Hrun by lia.
    destruct (Z.eqb_spec sent (size (outgoing_data_ c))); [|lia].
    simpl in Hrun. injection Hrun as <-. now contradiction Herr.
  - destruct p as [| [| e k] p']; cbn [bind] in Hrun; [discriminate | |].
    + change (is_error success) with false in Hrun.
      rewrite wrap_small in Hrun by lia.
      destruct (Z.eqb_spec (sent + increment) (size (outgoing_data_ c)))
        as [Hall | Hmore]; simpl orb in Hrun; cbv iota in Hrun.
      * injection Hrun as <-. now contradiction Herr.
      * apply IH in Hrun; try assumption; simpl; try lia.
        destruct Hrun as (chunks & Hwire & Hshort). simpl in Hshort.
        exists (chunk :: chunks). rewrite Hwire, <- app_assoc. split; [reflexivity|].
        simpl concat. rewrite size_app, Hchunk. lia.
    + change (is_error (Z.pos e)) with true in Hrun. simpl orb in Hrun.
      cbv iota in Hrun. injection Hrun as <-. simpl.
      assert (Hne : chunk <> []).
      { intros Hnil. rewrite Hnil, size_nil in Hchunk. lia. }
      destruct (prefix_of_removelast k chunk Hne) as [_ Hlt].
      eexists [_]. split; [reflexivity|]. simpl concat. rewrite app_nil_r. lia.
Qed.

(** X3.  Whatever the peer does, what a finished [write(data)] has
    put on the wire is a prefix of [data], in order and without gaps; when
    the write ended with an error it is a proper prefix, so some byte of the
    buffer was not sent. *)
Theorem wire_holds_a_prefix (c : tcp_connection) (p : peer) (w : wire)
        (data : list byte) (r : write_done) :
  arrays_ok c ->
  size data < SIZE_T_MODULUS ->
  write c p w data = Fired r ->
  exists chunks,
    w_wire r = w ++ chunks
    /\ concat chunks = take (size (concat chunks)) data
    /\ (w_error r <> success -> size (concat chunks) < size data).
Proof.
  intros Harr Hmax Hrun.
  pose proof (write_facts c p w data Harr Hmax) as Hfacts. rewrite Hrun in Hfacts.
  destruct Hfacts as (chunks & Hwire & _ & Hchain & _).
  exists chunks. split; [exact Hwire|]. split.
  - rewrite (sends_chained_prefix _ data 0 chunks ltac:(lia) Hchain) at 1.
    now rewrite drop_nonpos by lia.
  - intros Herr. destruct Harr as [_ Hwb].
    pose proof (size_nonneg data).
    destruct (write_chunked_error_short (S (Z.to_nat (size data)))
                (set_outgoing_data c data) p w 0 [] r)
      as (chunks' & Hwire' & Hshort); simpl; try lia; try assumption.
    rewrite Hwire in Hwire'. apply app_inv_head in Hwire'. subst chunks'.
    simpl in Hshort. lia.
Qed.

Lemma wire_holds_a_prefix_witness :
  exists r chunks,
    write fresh [Sent; Broken 32 1] [] (repeat x2a (Z.to_nat 1026)) = Fired r
    /\ w_wire r = [] ++ chunks
    /\ concat chunks = take (size (concat chunks)) (repeat x2a (Z.to_nat 1026))
    /\ (w_error r <> success -> size (concat chunks) < size (repeat x2a (Z.to_nat 1026))).
Proof.
  eexists.
  assert (Hw : write fresh [Sent; Broken 32 1] [] (repeat x2a (Z.to_nat 1026)) = Fired _)
    by (vm_compute; reflexivity).
  destruct (wire_holds_a_prefix fresh [Sent; Broken 32 1] [] (repeat x2a (Z.to_nat 1026)) _
              (conj eq_refl eq_refl) eq_refl Hw) as (chunks & Hfacts).
  exists chunks. split; [exact Hw | exact Hfacts].
Defined.

Lemma memcpy_out_of_range dst doff src soff n :
  size dst < doff + n -> memcpy dst doff src soff n = None.
Proof.
  intros Hout. unfold memcpy.
  destruct (Z.leb_spec (doff + n) (size dst)); [lia|].
  now rewrite andb_false_r.
Qed.

Lemma read_chunked_overruns fuel :
  forall c s bytes buffer read_bytes log,
    0 <= bytes < SIZE_T_MODULUS ->
    0 <= read_bytes <= size buffer ->
    size buffer < SIZE_T_MODULUS ->
    size buffer < read_bytes + bytes ->
    size (read_buffer_ c) = BUFFER_LENGTH ->
    bytes <= size (stream_bytes s) ->
    bytes < Z.of_nat fuel ->
    read_chunked fuel c s bytes buffer read_bytes log = Undefined.
Proof.
  induction fuel as [| fuel IH]; intros c s bytes buffer read_bytes log
    Hbytes Hoff Hmax Hover Harr Havail Hfuel; [lia|].
  assert (HC : BUFFER_LENGTH = 1024) by reflexivity.
  simpl read_chunked.
  set (room := if bytes <? BUFFER_LENGTH then bytes else BUFFER_LENGTH).
  assert (Hroom : room = Z.min bytes BUFFER_LENGTH).
  { subst room. destruct (Z.ltb_spec bytes BUFFER_LENGTH); lia. }
  destruct (async_read_fills _ bytes room s (read_condition_stops bytes) ltac:(lia) [])
    as (s' & Hrun & Hrest & _).
  { rewrite size_nil. lia. }
  { rewrite size_nil. lia. }
  rewrite Hrun. clear Hrun. rewrite size_nil, Z.sub_0_r in *. simpl app.
  set (got := take room (stream_bytes s)) in *.
  assert (Hgot : size got = room).
  { subst got. rewrite size_take by lia. lia. }
  cbn [bind]. change (is_error success) with false. cbv iota.
  unfold set_read_buffer at 1. simpl read_buffer_.
  destruct (Z.le_gt_cases (read_bytes + room) (size buffer)) as [Hfits | Hout].
  - rewrite memcpy_in_range; try lia.
    2:{ rewrite size_received_into; lia. }
    cbn [bind defined]. change (drop 0 ?l) with l.
    rewrite take_received_into, Hgot.
    rewrite !wrap_small by lia.
    destruct (Z.gtb_spec (bytes - room) 0) as [Hmore | Hdone]; [|lia].
    apply IH; try lia.
    + fold (splice buffer read_bytes got) || idtac.
      rewrite !size_app, size_take, size_drop by lia. lia.
    + rewrite !size_app, size_take, size_drop by lia. lia.
    + rewrite !size_app, size_take, size_drop by lia. lia.
    + simpl. rewrite size_received_into; lia.
    + rewrite Hrest, size_drop by lia. lia.
  - rewrite memcpy_out_of_range by lia. reflexivity.
Qed.

(** X4.  [read(bytes, data, callback)] needs a buffer of at least
    [bytes] bytes, as its remark says: with a shorter one, on a stream that
    delivers the bytes, the read comes to a chunk whose [memcpy] runs past
    the end of the buffer, which is undefined behaviour.  What the program
    does from there on, the callback included, is not defined. *)
Theorem read_into_short_buffer (fuel : nat) (c : tcp_connection) (s : stream_socket)
        (bytes : Z) (data : list byte) :
  0 <= bytes < SIZE_T_MODULUS ->
  size data < bytes ->
  size (read_buffer_ c) = BUFFER_LENGTH ->
  bytes <= size (stream_bytes s) ->
  bytes < Z.of_nat fuel ->
  read_into fuel c s bytes data = Undefined.
Proof.
  intros Hbytes Hshort Harr Havail Hfuel. unfold read_into.
  pose proof (size_nonneg data).
  apply read_chunked_overruns; try lia; assumption.
Qed.

Lemma read_into_short_buffer_witness :
  read_into 4 fresh [Packet [x01; x02; x03]] 3 [x00] = Undefined.
Proof.
  apply (read_into_short_buffer 4 fresh [Packet [x01; x02; x03]] 3 [x00]).
  - unfold SIZE_T_MODULUS. lia.
  - reflexivity.
  - reflexivity.
  - vm_compute. discriminate.
  - lia.
Defined.

(** X5.  With a buffer that is long enough, [read(bytes, data,
    callback)] overwrites the first [bytes] bytes of [data] with the stream
    and leaves the rest of the buffer as it was. *)
Theorem read_into_keeps_the_tail (fuel : nat) (c : tcp_connection) (s : stream_socket)
        (bytes : Z) (data : list byte) :
  0 <= bytes <= size data ->
  size data < SIZE_T_MODULUS ->
  size (read_buffer_ c) = BUFFER_LENGTH ->
  bytes <= size (stream_bytes s) ->
  bytes < Z.of_nat fuel ->
  exists r,
    read_into fuel c s bytes data = Fired r
    /\ r_error r = success
    /\ r_buffer r = take bytes (stream_bytes s) ++ drop bytes data
    /\ size (r_buffer r) = size data.
Proof.
  intros Hbytes Hmax Harr Havail Hfuel. unfold read_into.
  destruct (read_chunked_succeeds fuel c s bytes data 0 [])
    as (r & new & Hr & Herr & Hbuf & _); try lia; try assumption.
  exists r. split; [exact Hr|]. split; [exact Herr|].
  assert (Hpart : size (take bytes (stream_bytes s)) = bytes)
    by (rewrite size_take by lia; lia).
  rewrite Hbuf. split.
  - unfold splice. rewrite (take_nonpos 0), Z.add_0_l, Hpart by lia. reflexivity.
  - rewrite size_splice; lia.
Qed.

Lemma read_into_keeps_the_tail_witness :
  exists r,
    read_into 3 fresh [Packet [x01; x02; x03]] 2 [x0a; x0b; x0c] = Fired r
    /\ r_error r = success
    /\ r_buffer r = take 2 (stream_bytes [Packet [x01; x02; x03]]) ++ drop 2 [x0a; x0b; x0c]
    /\ size (r_buffer r) = size [x0a; x0b; x0c].
Proof.
  apply (read_into_keeps_the_tail 3 fresh [Packet [x01; x02; x03]] 2 [x0a; x0b; x0c]).
  - vm_compute. split; discriminate.
  - reflexivity.
  - reflexivity.
  - vm_compute. discriminate.
  - lia.
Defined.

(** X6.  The operations of length zero complete at once and without
    error, whatever the connection, the socket and the peer: [read(0)] hands
    over an empty buffer and takes nothing from the socket, not even a
    pending failure; [write] of an empty buffer issues one empty send and
    does not wait for the peer. *)
Theorem zero_length_operations (c : tcp_connection) (s : stream_socket) (p : peer)
        (w : wire) :
  (exists r,
      read c s 0 = Fired r
      /\ r_error r = success /\ r_buffer r = [] /\ r_socket r = s)
  /\ (exists r,
         write c p w [] = Fired r
         /\ w_error r = success /\ w_wire r = w ++ [[]] /\ w_peer r = p).
Proof.
  split.
  - unfold read, read_into.
    assert (Hin : resize 0 (incoming_data_ c) = []).
    { unfold resize. rewrite take_nonpos by lia.
      pose proof (size_nonneg (incoming_data_ c)).
      replace (Z.to_nat (0 - size (incoming_data_ c))) with O by lia. reflexivity. }
    rewrite Hin. change (Z.to_nat 0) with O. simpl read_chunked.
    assert (Hrun : async_read (fun error len => is_error error || (0 <=? len)) 0 [] s
                   = Fired (success, [], s)) by (destruct s; reflexivity).
    rewrite Hrun. cbn [bind]. change (is_error success) with false. cbv iota.
    rewrite memcpy_in_range
      by (rewrite ?size_nil; simpl; first [lia | apply size_nonneg]).
    cbn [bind defined]. simpl.
    eexists. split; [reflexivity|]. repeat split.
  - unfold write. change (Z.to_nat (size [])) with O. simpl write_chunked.
    change (wrap 0) with 0.
    rewrite memcpy_in_range
      by (rewrite ?size_nil; simpl; first [lia | apply size_nonneg]).
    cbn [bind defined]. simpl.
    eexists. split; [reflexivity|]. repeat split.
Qed.

Lemma read_waits_for_silent_peer_witness :
  read fresh [Packet [x01; x02]] 3 = Pending.
Proof.
  apply (read_waits_for_silent_peer fresh [Packet [x01; x02]] 3).
  - unfold SIZE_T_MODULUS. lia.
  - split; reflexivity.
  - vm_compute. reflexivity.
  - reflexivity.
Defined.

End TcpMore.

(** ** More on the datagram connection *)

Section UdpMore.
Import UdpConnection.

(** X8.  Two datagrams that arrive back to back come out of two
    reads, each with its own bytes, its own length and its own sender,
    neither merged nor cut, and the second read leaves what follows. *)
Theorem datagrams_come_one_by_one (from1 from2 : endpoint_type)
        (payload1 payload2 : list byte) (s : datagram_socket) :
  exists r1 r2,
    read (Datagram from1 payload1 None :: Datagram from2 payload2 None :: s) = Fired r1
    /\ read (r_socket r1) = Fired r2
    /\ r_error r1 = success /\ r_endpoint r1 = from1 /\ r_buffer r1 = payload1
    /\ r_error r2 = success /\ r_endpoint r2 = from2 /\ r_buffer r2 = payload2
    /\ r_socket r2 = s.
Proof.
  eexists _, _. rewrite udp_read_one_datagram. split; [reflexivity|].
  cbn [r_socket]. rewrite udp_read_one_datagram. split; [reflexivity|].
  repeat split.
Qed.

End UdpMore.

(** ** More on the listener *)

Section ListenerMore.
Import TcpListener.

Lemma all_running (ts : list thread) :
  Forall (eq running) ts -> ts = repeat running (length ts).
Proof. induction 1 as [| t ts <- _ IH]; simpl; congruence. Qed.

Lemma repeat_running (n : nat) : Forall (eq running) (repeat running n).
Proof. induction n; simpl; constructor; auto. Qed.

Lemma firstn_of_repeat {A : Type} (x : A) (n : nat) :
  forall k, firstn n (repeat x k) = repeat x (Nat.min n k).
Proof. induction n as [| n IH]; intros [| k]; simpl; [| | | rewrite IH]; reflexivity. Qed.

Lemma skipn_of_repeat {A : Type} (x : A) (n : nat) :
  forall k, skipn n (repeat x k) = repeat x (k - n).
Proof. induction n as [| n IH]; intros [| k]; simpl; auto. Qed.

Lemma resize_fresh (n k : nat) :
  firstn n (repeat not_a_thread k) ++ repeat not_a_thread (n - k)
  = repeat not_a_thread n.
Proof.
  rewrite firstn_of_repeat, <- repeat_app. f_equal. lia.
Qed.

Lemma nothing_joinable (n k : nat) :
  existsb joinable (skipn n (repeat not_a_thread k)) = false.
Proof.
  rewrite skipn_of_repeat. induction (k - n)%nat; simpl; auto.
Qed.

(** X9.  [start() -> stop() -> start()], as the comment in [start] allows,
    for a listener with a worker thread and nothing queued at the first
    [start]: [stop] returns, and the second [start] returns with the new
    handler set, the same number of worker threads running, the acceptor
    open, the io_service running again and exactly one accept armed.  The
    accept that [stop] cancelled is reported once, with [operation_aborted]
    and no connection: to the old handler when a worker runs its completion
    before the io_service stops, and otherwise to the new handler after the
    second [start], while the accept of the new chain stays armed. *)
Theorem restart (l0 l1 : tcp_listener) (h h' : nat) (bindable : bool) (picked : nat) :
  start l0 h bindable = Returns tt l1 ->
  posted l0 = [] ->
  threads_ l0 <> [] ->
  exists l2 l3,
    stop l1 picked = Returns tt l2
    /\ start l2 h' true = Returns tt l3
    /\ connection_handler_ l3 = Some h'
    /\ outstanding l3 = 1%nat
    /\ threads_ l3 = threads_ l1
    /\ acceptor_open l3 = true
    /\ ioservice_stopped l3 = false
    /\ match picked with
       | O =>
           notified l3 = notified l1
           /\ posted l3 = [operation_aborted]
           /\ notified (run l3 [RunsPosted])
              = notified l1 ++ [refusal h' operation_aborted]
           /\ outstanding (run l3 [RunsPosted]) = 1%nat
           /\ posted (run l3 [RunsPosted]) = []
       | S _ =>
           notified l3 = notified l1 ++ [refusal h operation_aborted]
           /\ posted l3 = []
       end.
Proof.
  intros Hstart Hq0 Hsome.
  destruct (start_accepting _ _ _ _ Hstart Hsome) as (_ & _ & _ & Hwork).
  destruct (start_returned _ _ _ _ Hstart) as (_ & _ & _ & _ & _ & Hq & Hrun & _).
  rewrite Hq0 in Hq.
  destruct (stop_started _ _ _ _ picked Hstart)
    as (l2 & Hstop & Hts2 & Hclosed2 & _ & _ & _ & Hq2 & Hlog2).
  rewrite Hwork, Hq in Hq2, Hlog2. simpl in Hq2, Hlog2.
  destruct (start_joined l2 h' _ Hts2 Hclosed2) as (l3 & Hstart3 & Hts3).
  destruct (start_returned _ _ _ _ Hstart3)
    as (Hh3 & Hout3 & Hopen3 & Hst3 & Hlog3 & Hq3 & Hrun3 & Hlen3).
  exists l2, l3. split; [exact Hstop|]. split; [exact Hstart3|].
  split; [exact Hh3|]. split; [exact Hout3|].
  split; [rewrite Hts3; symmetry; now apply all_running|].
  split; [exact Hopen3|]. split; [exact Hst3|].
  destruct picked as [| picked].
  - simpl in Hq2, Hlog2. rewrite app_nil_r in Hlog2.
    assert (Hwork3 : working l3 = true).
    { apply running_pool_works; try assumption.
      rewrite Hts3. intros Hnil. apply Hsome.
      destruct (start_returned _ _ _ _ Hstart) as (_ & _ & _ & _ & _ & _ & _ & Hlen).
      destruct (threads_ l1); [|discriminate].
      destruct (threads_ l0); [reflexivity | discriminate]. }
    split; [congruence|]. split; [congruence|].
    simpl. unfold run_posted. rewrite Hwork3, Hq3, Hq2.
    unfold accept_handler, call_handler. cbn [connection_handler_ set_acceptor].
    rewrite Hh3. simpl. rewrite Hlog3, Hlog2. auto.
  - destruct picked; simpl in Hq2, Hlog2; split; congruence.
Qed.

Lemma restart_witness :
  exists l1 l2 l3,
    start (make 8080 "") 7 true = Returns tt l1
    /\ stop l1 0 = Returns tt l2
    /\ start l2 9 true = Returns tt l3
    /\ connection_handler_ l3 = Some 9%nat
    /\ outstanding l3 = 1%nat
    /\ threads_ l3 = threads_ l1
    /\ acceptor_open l3 = true
    /\ ioservice_stopped l3 = false
    /\ notified l3 = notified l1
    /\ posted l3 = [operation_aborted]
    /\ notified (run l3 [RunsPosted]) = notified l1 ++ [refusal 9 operation_aborted]
    /\ outstanding (run l3 [RunsPosted]) = 1%nat
    /\ posted (run l3 [RunsPosted]) = [].
Proof.
  eexists.
  assert (Hstart : start (make 8080 "") 7 true = Returns tt _) by reflexivity.
  destruct (restart (make 8080 "") _ 7 9 true 0 Hstart) as (l2 & l3 & Hfacts);
    [reflexivity | discriminate |].
  exists l2, l3. split; [exact Hstart | exact Hfacts].
Defined.

(** X10.  A second [start()] without a [stop()] in between does not
    return: it assigns a new thread to a thread object that is still
    joinable, which calls [std::terminate]. *)
Theorem start_twice_terminates (l0 l1 : tcp_listener) (h h' : nat)
        (bindable bindable' : bool) :
  start l0 h bindable = Returns tt l1 ->
  threads_ l1 <> [] ->
  start l1 h' bindable' = Terminates.
Proof.
  intros Hstart Hsome.
  destruct (start_returned _ _ _ _ Hstart) as (_ & _ & _ & _ & _ & _ & Hrun & _).
  unfold start. simpl.
  destruct (threads_ l1) as [| t ts]; [congruence|].
  inversion Hrun as [| ? ? <- _]. reflexivity.
Qed.

Lemma start_twice_terminates_witness :
  exists l1,
    start (make 8080 "") 7 true = Returns tt l1
    /\ start l1 9 true = Terminates.
Proof.
  eexists.
  assert (Hstart : start (make 8080 "") 7 true = Returns tt _) by reflexivity.
  split; [exact Hstart|].
  apply (start_twice_terminates (make 8080 "") _ 7 9 true true Hstart).
  discriminate.
Defined.


(** X12.  [set_threads] with a smaller count on a listener that is
    running does not return: the resize destroys worker threads that are
    still joinable, which calls [std::terminate]. *)
Theorem shrinking_a_running_pool_terminates (l0 l1 : tcp_listener) (h : nat)
        (bindable : bool) (n : nat) :
  start l0 h bindable = Returns tt l1 ->
  (n < length (threads_ l1))%nat ->
  set_threads l1 n = Terminates.
Proof.
  intros Hstart Hless.
  destruct (start_returned _ _ _ _ Hstart) as (_ & _ & _ & _ & _ & _ & Hrun & _).
  apply all_running in Hrun.
  unfold set_threads. rewrite Hrun, skipn_of_repeat.
  destruct (length (threads_ l1) - n)%nat as [| k] eqn:Hk; [lia|]. reflexivity.
Qed.

Lemma shrinking_a_running_pool_terminates_witness :
  exists l1,
    start (make 8080 "") 7 true = Returns tt l1
    /\ set_threads l1 1 = Terminates.
Proof.
  eexists.
  assert (Hstart : start (make 8080 "") 7 true = Returns tt _) by reflexivity.
  split; [exact Hstart|].
  apply (shrinking_a_running_pool_terminates (make 8080 "") _ 7 true 1 Hstart).
  simpl. lia.
Defined.


End ListenerMore.

(** ** More on the synchronizer *)

Section SynchronizerMore.
Import Synchronizer.

Lemma wait_loop_returns wakeups :
  forall s,
    (exists s', wait_loop s wakeups = Returns tt s')
    <-> (_condition_met s = true \/ In true wakeups).
Proof.
  induction wakeups as [| flag wakeups IH]; intros [met].
  - destruct met; simpl; split.
    + auto.
    + intros _. eexists. reflexivity.
    + intros [s' Hs']. discriminate.
    + intros [Hmet | []]. discriminate.
  - destruct met; simpl.
    + split; [auto | intros _; eexists; reflexivity].
    + rewrite (IH {| _condition_met := flag |}). simpl.
      split.
      * intros [-> | Hin]; auto.
      * intros [Hmet | [-> | Hin]]; [discriminate | auto | auto].
Qed.

(** X14.  [wait()] copes with spurious wake-ups: it returns exactly
    when the condition was met at the call or some wake-up finds it met, and
    when it returns the condition is met; wake-ups that find the condition
    unmet never let it through. *)
Theorem wait_returns_when_met (s : synchronizer) (wakeups : list bool) :
  ((exists s', wait_locking s wakeups = Returns tt s')
   <-> (_condition_met s = true \/ In true wakeups))
  /\ (forall s', wait_locking s wakeups = Returns tt s' -> _condition_met s' = true)
  /\ (forall s', wait_locking s wakeups = Blocks s' -> _condition_met s' = false).
Proof.
  unfold wait_locking, wait. simpl.
  split; [apply wait_loop_returns|].
  pose proof (wait_loop_ends wakeups s) as Hend.
  split; intros s' Hrun; now rewrite Hrun in Hend.
Qed.

Lemma wait_returns_when_met_witness :
  exists s', wait_locking make [false; true] = Returns tt s'.
Proof.
  destruct (wait_returns_when_met make [false; true]) as [[_ Hback] _].
  apply Hback. right. simpl. auto.
Defined.

(** X15.  The event is manual-reset: after [set()] every [wait()]
    returns at once, whatever the wake-ups, and the condition stays met;
    after [reset()] a [wait()] that sees only spurious wake-ups blocks. *)
Theorem manual_reset_event (s : synchronizer) (wakeups : list bool) (spurious : nat) :
  exists up down,
    set_locking s = Returns tt up
    /\ wait_locking up wakeups = Returns tt up
    /\ is_condition_met_locking up = true
    /\ reset_locking up = Returns tt down
    /\ is_condition_met_locking down = false
    /\ wait_locking down (repeat false spurious) = Blocks down.
Proof.
  do 2 eexists. split; [reflexivity|]. split.
  { destruct wakeups; reflexivity. }
  split; [reflexivity|]. split; [reflexivity|]. split; [reflexivity|].
  unfold wait_locking, wait. simpl.
  induction spurious as [| k IH]; [reflexivity | exact IH].
Qed.

Lemma timed_wait_loop_early wakeups :
  forall s deadline now,
    now < deadline ->
    Forall (fun wakeup => snd wakeup < deadline) wakeups ->
    match timed_wait_loop s deadline now wakeups with
    | Returns met s' => met = true /\ _condition_met s' = true
    | Blocks s' => _condition_met s' = false
    | Throws _ _ => False
    | Terminates => False
    end.
Proof.
  induction wakeups as [| [flag now'] wakeups IH]; intros [met] deadline now Hnow Hall.
  - simpl. destruct met; simpl; [auto|].
    destruct (Z.ltb_spec now deadline); [reflexivity | lia].
  - simpl. destruct met; simpl; [auto|].
    destruct (Z.ltb_spec now deadline); [|lia].
    inversion Hall as [| ? ? Hnow' Hall']. subst. apply IH; assumption.
Qed.

(** X16.  The timed [wait] returns the condition, and it does not give
    up early: as long as the clock reads less than the deadline at the call
    and at every wake-up, it never returns [false]. *)
Theorem timed_wait_keeps_the_deadline (s : synchronizer) (deadline now : Z)
        (wakeups : list (bool * Z)) :
  (forall met s',
      wait_until_locking s deadline now wakeups = Returns met s' ->
      met = _condition_met s')
  /\ (now < deadline ->
      Forall (fun wakeup => snd wakeup < deadline) wakeups ->
      forall s', wait_until_locking s deadline now wakeups <> Returns false s').
Proof.
  unfold wait_until_locking, wait_until. simpl. split.
  - intros met s' Hrun.
    pose proof (timed_wait_loop_ends wakeups s deadline now) as Hend.
    now rewrite Hrun in Hend.
  - intros Hnow Hall s' Hrun.
    pose proof (timed_wait_loop_early wakeups s deadline now Hnow Hall) as Hend.
    rewrite Hrun in Hend. destruct Hend. discriminate.
Qed.

Lemma timed_wait_keeps_the_deadline_witness :
  wait_until_locking make 10 0 [(false, 3); (false, 7)] <> Returns false make.
Proof.
  apply (timed_wait_keeps_the_deadline make 10 0 [(false, 3); (false, 7)]).
  - lia.
  - repeat constructor; simpl; lia.
Defined.

(** X17.  A timed [wait] whose timeout is zero or negative does not
    wait at all: it returns the condition as it is. *)
Theorem wait_for_nothing (s : synchronizer) (timeout now : Z)
        (wakeups : list (bool * Z)) :
  timeout <= 0 ->
  wait_for_locking s timeout now wakeups = Returns (_condition_met s) s.
Proof.
  intros Hneg. unfold wait_for_locking, wait_for, wait_until. simpl.
  destruct wakeups as [| [flag now'] wakeups]; simpl;
    destruct (Z.ltb_spec now (now + timeout)); try lia;
    now rewrite andb_false_r.
Qed.

Lemma wait_for_nothing_witness :
  wait_for_locking make 0 5 [(true, 6)] = Returns false make.
Proof.
  apply (wait_for_nothing make 0 5 [(true, 6)]). lia.
Defined.

End SynchronizerMore.

(** ** More on the queue *)

Section QueueMore.
Import ConcurrentQueue.
Context {A : Type}.
Implicit Types (q : concurrent_queue A) (wakes : list (wake A)).

Lemma pop_front q wakes front rest :
  _container q = front :: rest ->
  pop q wakes = Returns front {| _size := _size q - 1; _container := rest |}.
Proof.
  intros Hq. unfold pop.
  assert (Hloop : wait_loop q wakes = Returns tt q)
    by (destruct wakes; simpl; now rewrite Hq).
  now rewrite Hloop, (do_pop_front q front rest Hq).
Qed.

Lemma pop_empty q : _container q = [] -> pop q [] = Blocks q.
Proof. intros Hq. unfold pop. simpl. now rewrite Hq. Qed.

Lemma drain_all (elements : list A) :
  forall (n : Z),
    drain (length elements) {| _size := n; _container := elements |}
    = (elements, {| _size := n - Z.of_nat (length elements); _container := [] |}).
Proof.
  induction elements as [| x elements IH]; intros n.
  - simpl. now rewrite Z.sub_0_r.
  - cbn [drain length].
    rewrite (pop_front {| _size := n; _container := x :: elements |} [] x elements
                       eq_refl).
    cbn [_size]. rewrite IH. do 2 f_equal. lia.
Qed.

(** X18.  The queue is first in, first out: after the elements of
    [pushed] were pushed, in this order, onto a queue that holds [held], as
    many [pop()] calls as there are elements return [held] and then [pushed],
    in order, none waits, and the queue is empty afterwards. *)
Theorem first_in_first_out q (pushed : list A) :
  let everything := _container q ++ pushed in
  exists q',
    drain (length everything) (pushes q pushed) = (everything, q')
    /\ _container q' = []
    /\ _size q' = _size q - Z.of_nat (length (_container q)).
Proof.
  intros everything.
  pose proof (pushes_container pushed q) as Hc.
  pose proof (pushes_size pushed q) as Hs.
  destruct (pushes q pushed) as [n elements]. simpl in Hc, Hs. subst.
  fold everything. rewrite drain_all.
  eexists. split; [reflexivity|]. split; [reflexivity|]. simpl.
  subst everything. rewrite length_app. lia.
Qed.

Lemma perform_law (o : operation) :
  forall q dropped,
    _size q = Z.of_nat (length (_container q)) + Z.of_nat dropped ->
    let (q', dropped') := perform (q, dropped) o in
    _size q' = Z.of_nat (length (_container q')) + Z.of_nat dropped'.
Proof.
  intros q dropped Hlaw. destruct o as [x | |]; simpl.
  - rewrite length_app. simpl. lia.
  - destruct (_container q) as [| front rest] eqn:Hq.
    + now rewrite (pop_empty q Hq), Hq.
    + rewrite (pop_front q [] front rest Hq).
      cbn [_size _container]. simpl length in Hlaw. lia.
  - lia.
Qed.

Lemma history_law (ops : list operation) :
  forall q dropped,
    _size q = Z.of_nat (length (_container q)) + Z.of_nat dropped ->
    let (q', dropped') := fold_left perform ops (q, dropped) in
    _size q' = Z.of_nat (length (_container q')) + Z.of_nat dropped'.
Proof.
  induction ops as [| o ops IH]; intros q dropped Hlaw; [exact Hlaw|].
  change (fold_left perform (o :: ops) (q, dropped))
    with (fold_left perform ops (perform (q, dropped) o)).
  pose proof (perform_law o q dropped Hlaw) as Hstep.
  destruct (perform (q, dropped) o) as [q1 dropped1]. now apply IH.
Qed.

Lemma perform_no_clear (o : operation) q dropped :
  o <> Clear -> snd (perform (q, dropped) o) = dropped.
Proof.
  destruct o; simpl; try congruence; intros _.
  destruct (pop q []); reflexivity.
Qed.

Lemma history_no_clear (ops : list operation) :
  forall q dropped,
    ~ In Clear ops -> snd (fold_left perform ops (q, dropped)) = dropped.
Proof.
  induction ops as [| o ops IH]; intros q dropped Hno; [reflexivity|].
  change (fold_left perform (o :: ops) (q, dropped))
    with (fold_left perform ops (perform (q, dropped) o)).
  pose proof (perform_no_clear o q dropped) as Hstep.
  destruct (perform (q, dropped) o) as [q1 dropped1]. simpl in Hstep.
  rewrite IH by (intros Hin; apply Hno; now right).
  apply Hstep. intros ->. apply Hno. now left.
Qed.

(** X19.  After every history of [push], [pop] and [clear] on a new
    queue, the counter is the number of stored elements plus the number of
    elements that [clear] has dropped.  So [empty()] answering [true] means
    that no element is stored, and as long as [clear] was never called the
    counter is exactly the number of stored elements. *)
Theorem counter_law (ops : list (@operation A)) :
  let (q, dropped) := history ops in
  _size q = Z.of_nat (length (_container q)) + Z.of_nat dropped
  /\ (empty q = true -> _container q = [])
  /\ (~ In Clear ops -> counted q).
Proof.
  unfold history.
  pose proof (history_law ops make O eq_refl) as Hlaw.
  pose proof (history_no_clear ops make O) as Hno.
  destruct (fold_left perform ops (make, O)) as [q dropped]. simpl in Hno.
  split; [exact Hlaw|]. split.
  - unfold empty. intros Hzero. apply Z.eqb_eq in Hzero.
    destruct (_container q); [reflexivity | simpl length in Hlaw; lia].
  - intros Hclean. specialize (Hno Hclean). subst dropped.
    unfold counted. rewrite Hlaw. simpl. lia.
Qed.

Lemma wait_loop_first_push wakes :
  forall q,
    _container q = [] ->
    wait_loop q wakes
    = match first_push wakes with
      | Some pushed => Returns tt (pushes q pushed)
      | None => Blocks q
      end.
Proof.
  induction wakes as [| [[| x pushed] |] wakes IH]; intros q Hq.
  - simpl. now rewrite Hq.
  - simpl. rewrite Hq. now apply IH.
  - simpl first_push. simpl wait_loop. rewrite Hq.
    pose proof (pushes_container (x :: pushed) q) as Hc. rewrite Hq in Hc.
    simpl in Hc. destruct wakes; simpl; now rewrite Hc.
  - simpl. rewrite Hq. now apply IH.
Qed.

(** X20.  [pop()] on an empty queue sits through spurious wake-ups:
    as long as no wake-up brings an element it keeps waiting and leaves the
    queue as it is, and at the first wake-up that brings elements it returns
    the first of them and leaves the others in the queue, in order. *)
Theorem pop_waits_for_an_element q wakes :
  _container q = [] ->
  (first_push wakes = None -> pop q wakes = Blocks q)
  /\ (forall front pushed,
         first_push wakes = Some (front :: pushed) ->
         pop q wakes
         = Returns front {| _size := _size q + Z.of_nat (length (front :: pushed)) - 1;
                            _container := pushed |}).
Proof.
  intros Hq. unfold pop. rewrite (wait_loop_first_push wakes q Hq).
  split.
  - intros ->. reflexivity.
  - intros front pushed ->.
    rewrite (do_pop_front (pushes q (front :: pushed)) front pushed)
      by (now rewrite pushes_container, Hq).
    now rewrite pushes_size.
Qed.

End QueueMore.

Section QueueMoreExamples.
Import ConcurrentQueue.

Lemma pop_waits_for_an_element_witness :
  let q : concurrent_queue Z := make in
  pop q [Notified []; TimedOut; Notified [4; 5]]
  = Returns 4 {| _size := _size q + Z.of_nat (length [4; 5]) - 1; _container := [5] |}.
Proof.
  apply (pop_waits_for_an_element (@make Z) [Notified []; TimedOut; Notified [4; 5]]);
    reflexivity.
Defined.

Lemma counter_law_witness :
  let (q, dropped) := history [Push 1; Pop; Push 2; Push 3] in
  counted q.
Proof.
  generalize (counter_law [Push 1; Pop; Push 2; Push 3]).
  destruct (history [Push 1; Pop; Push 2; Push 3]) as [q dropped].
  intros (_ & _ & Hclean). apply Hclean.
  intros [Hin | [Hin | [Hin | [Hin | []]]]]; discriminate.
Defined.

End QueueMoreExamples.

(** ** The buffer dump *)

Section LogFacts.
Import Log.

Lemma decode_slots_hex02 (b : byte) (slots : nat) (rest : output) :
  decode_slots (S slots) (hex02 b ++ rest)
  = option_map (cons b) (decode_slots slots rest).
Proof.
  destruct b; simpl; destruct (decode_slots slots rest); reflexivity.
Qed.

Lemma decode_slots_line (line : list byte) :
  forall slots tail,
    (length line <= slots)%nat ->
    decode_slots slots (flat_map hex02 line
                          ++ concat (repeat filler (slots - length line)) ++ tail)
    = Some line.
Proof.
  induction line as [| b line IH]; intros slots tail Hlen.
  - destruct slots; reflexivity.
  - destruct slots as [| slots]; [simpl in Hlen; lia|].
    change (flat_map hex02 (b :: line)) with (hex02 b ++ flat_map hex02 line).
    rewrite <- app_assoc, decode_slots_hex02.
    change (S slots - length (b :: line))%nat with (slots - length line)%nat.
    rewrite IH by (simpl in Hlen; lia). reflexivity.
Qed.

Lemma skip_line_unbroken (pre : output) :
  forall tail, unbroken pre -> skip_line (pre ++ newline :: tail) = tail.
Proof.
  induction 1 as [| c pre Hc _ IH]; simpl.
  - reflexivity.
  - now rewrite Hc.
Qed.

Lemma hex02_printable (b : byte) : forallb printable (hex02 b) = true.
Proof. destruct b; reflexivity. Qed.

Lemma shown_printable (b : byte) : printable (shown b) = true.
Proof. destruct b; reflexivity. Qed.

Lemma printable_unbroken (out : output) :
  forallb printable out = true -> unbroken out.
Proof.
  unfold unbroken. rewrite forallb_forall, Forall_forall.
  intros Hall c Hin. specialize (Hall c Hin).
  destruct (Ascii.eqb_spec c newline) as [-> |]; [discriminate | reflexivity].
Qed.

Lemma dump_line_body (line : list byte) :
  dump_line line = line_body line ++ [newline].
Proof. unfold dump_line, line_body. now rewrite <- !app_assoc. Qed.

Lemma line_body_printable (line : list byte) :
  forallb printable (line_body line) = true.
Proof.
  unfold line_body. rewrite !forallb_app.
  repeat (apply andb_true_intro; split).
  - induction line as [| b line IH]; [reflexivity|].
    change (flat_map hex02 (b :: line)) with (hex02 b ++ flat_map hex02 line).
    rewrite forallb_app, hex02_printable. exact IH.
  - induction (16 - length line)%nat as [| k IH]; [reflexivity|].
    simpl repeat. simpl concat. exact IH.
  - induction line as [| b line IH]; [reflexivity|].
    simpl. now rewrite shown_printable.
Qed.

Lemma length_flat_map_hex02 (line : list byte) :
  length (flat_map hex02 line) = (3 * length line)%nat.
Proof. induction line as [| b line IH]; simpl; lia. Qed.

Lemma length_fillers (k : nat) : length (concat (repeat filler k)) = (3 * k)%nat.
Proof. induction k as [| k IH]; simpl in *; lia. Qed.

Lemma length_line_body (line : list byte) :
  (length line <= 16)%nat -> length (line_body line) = (48 + length line)%nat.
Proof.
  intros Hlen. unfold line_body.
  rewrite !length_app, length_flat_map_hex02, length_fillers, length_map. lia.
Qed.

Lemma decode_lines_dump fuel :
  forall buff,
    (length buff <= fuel)%nat ->
    decode_lines fuel (dump_lines fuel buff) = Some buff.
Proof.
  induction fuel as [| fuel IH]; intros buff Hlen.
  - destruct buff; [reflexivity | simpl in Hlen; lia].
  - destruct buff as [| b buff]; [reflexivity|].
    cbn [dump_lines].
    remember (firstn 16 (b :: buff)) as line eqn:Hl.
    remember (dump_lines fuel (skipn 16 (b :: buff))) as rest eqn:Hr.
    assert (Hline : (length line <= 16)%nat) by (subst line; apply firstn_le_length).
    assert (Hslots : decode_slots 16 (dump_line line ++ rest) = Some line).
    { unfold dump_line. rewrite <- !app_assoc. now apply decode_slots_line. }
    assert (Hskip : skip_line (dump_line line ++ rest) = rest).
    { rewrite dump_line_body, <- app_assoc.
      change ([newline] ++ rest) with (newline :: rest).
      apply skip_line_unbroken, printable_unbroken, line_body_printable. }
    assert (Hsome : dump_line line ++ rest <> []).
    { rewrite dump_line_body. destruct (line_body line); discriminate. }
    destruct (dump_line line ++ rest) as [| c out]; [contradiction|].
    cbn [decode_lines]. rewrite Hslots, Hskip. subst rest.
    rewrite IH.
    + subst line. now rewrite firstn_skipn.
    + rewrite length_skipn. simpl in Hlen. simpl length. lia.
Qed.

(** X21.  The hex columns of a dump of a whole buffer read back as the
    buffer: the dump is the title line, then lines that decode to the bytes
    of the buffer in order, then the closing brace. *)
Theorem dump_buffer_reads_back (title : string) (inbuff : list byte) :
  exists body,
    dump_buffer title inbuff (size inbuff)
    = Some (list_ascii_of_string title ++ [" "%char; "{"%char; newline]
              ++ body ++ ["}"%char; newline])
    /\ decode_lines (length inbuff) body = Some inbuff.
Proof.
  exists (dump_lines (length inbuff) inbuff). split.
  - unfold dump_buffer.
    pose proof (size_nonneg inbuff).
    destruct (Z.leb_spec 0 (size inbuff)); [|lia].
    rewrite Z.leb_refl. simpl andb. cbv iota.
    rewrite take_all by lia. unfold size. now rewrite Nat2Z.id.
  - now apply decode_lines_dump.
Qed.

(** X22.  A line of the dump for [k <= 16] bytes is [48 + k] printable
    characters, from [' '] to ['~'], and then the newline: three per slot of
    the hex column, one per byte in the text column, and no byte of the
    buffer reaches the output unescaped. *)
Theorem dump_line_shape (line : list byte) :
  (length line <= 16)%nat ->
  exists body,
    dump_line line = body ++ [newline]
    /\ length body = (48 + length line)%nat
    /\ forallb printable body = true.
Proof.
  intros Hlen. exists (line_body line).
  split; [apply dump_line_body|].
  split; [now apply length_line_body | apply line_body_printable].
Qed.

Lemma dump_line_shape_witness :
  exists body,
    dump_line [x48; x69; x00] = body ++ [newline]
    /\ length body = (48 + length [x48; x69; x00])%nat
    /\ forallb printable body = true.
Proof.
  apply (dump_line_shape [x48; x69; x00]). simpl. lia.
Defined.

End LogFacts.
